(** * Sift: tag extraction and tag-to-phrase matching ([src/lib/claude.ts])

    A shallow embedding of the two exported functions of [claude.ts]:

    - [extractTags], which asks an external model for tags and filters the
      answer against the canonical vocabulary [TAGS], and
    - [findClosestPhraseByTags], which scans the phrase bank and returns the
      index of the phrase that contains the most tags.

    Strings are Stdlib strings holding the UTF-8 bytes of the text.  The
    case mapping of [toLowerCase] is written out for Basic Latin, Latin-1
    and the Greek alphabet, including the final-sigma rule.  JavaScript
    numbers are only used as small counters and indices here, so they are
    modelled by [Z].  Both functions write to the console; the console is
    the state threaded through the monad [M] below, and a [throw] is the
    [Throw] completion of that monad. *)

From Stdlib Require Import ZArith Ascii Bool.
From stdpp Require Import gmap strings list.

Local Open Scope Z_scope.

(** ** JavaScript string built-ins *)

(** A JavaScript string is held as the UTF-8 bytes of its text (the form
    Rocq string literals have).  For well-formed text, one text occurs in
    another exactly when its bytes occur in the other's bytes. *)

Module JsString.

Definition code (c : ascii) : N := N_of_ascii c.

Definition between (lo hi n : N) : bool := ((lo <=? n) && (n <=? hi))%N.

Definition isAsciiChar (c : ascii) : bool := (code c <? 128)%N.

(** Texts made of Basic Latin characters only. *)
Fixpoint isAscii (s : string) : bool :=
  match s with
  | EmptyString => true
  | String c s' => isAsciiChar c && isAscii s'
  end.

(** [String.prototype.toLowerCase] on one Basic Latin character: the
    letters [A]..[Z] (codes 65..90) move to [a]..[z], every other character
    is left alone. *)
Definition toLowerCaseChar (c : ascii) : ascii :=
  let n := N_of_ascii c in
  if ((65 <=? n) && (n <=? 90))%N then ascii_of_N (n + 32) else c.

(** Two bytes that encode one character U+0080..U+07FF, its code point, and
    the two bytes of such a code point. *)
Definition isPair (c d : ascii) : bool :=
  between 194 223 (code c) && between 128 191 (code d).

Definition pairCode (c d : ascii) : N :=
  ((code c - 192) * 64 + (code d - 128))%N.

Definition encodePair (cp : N) : string :=
  String (ascii_of_N (192 + cp / 64)) (String (ascii_of_N (128 + cp mod 64)) EmptyString).

(** The Unicode properties Cased and Case_Ignorable and the simple
    lower-case mapping, written out for the blocks Basic Latin and Latin-1
    Supplement and for the Greek letters U+0391..U+03C9.  Characters of
    other blocks are not covered: they count as uncased and are copied. *)
Definition isCased (cp : N) : bool :=
  between 65 90 cp || between 97 122 cp
  || (cp =? 170)%N || (cp =? 181)%N || (cp =? 186)%N
  || between 192 214 cp || between 216 246 cp || between 248 255 cp
  || between 913 929 cp || between 931 969 cp.

Definition isCaseIgnorable (cp : N) : bool :=
  (cp =? 39)%N || (cp =? 46)%N || (cp =? 58)%N || (cp =? 94)%N || (cp =? 96)%N
  || (cp =? 168)%N || (cp =? 173)%N || (cp =? 175)%N || (cp =? 180)%N
  || (cp =? 183)%N || (cp =? 184)%N.

Definition lowerCode (cp : N) : N :=
  if between 65 90 cp || between 192 214 cp || between 216 222 cp
     || between 913 929 cp || between 931 939 cp
  then (cp + 32)%N else cp.

(** Whether the text read so far ends with a cased letter followed by
    case-ignorable characters only, after one more character [cp]. *)
Definition contextAfter (afterCased : bool) (cp : N) : bool :=
  if isCased cp then true
  else if isCaseIgnorable cp then afterCased
  else false.

(** The rest of the text starts with case-ignorable characters followed by
    a cased letter. *)
Fixpoint followedByCased (s : string) : bool :=
  match s with
  | EmptyString => false
  | String c rest =>
      let single :=
        if isAsciiChar c then
          if isCased (code c) then true
          else if isCaseIgnorable (code c) then followedByCased rest
          else false
        else false in
      match rest with
      | EmptyString => single
      | String d rest' =>
          if isPair c d then
            if isCased (pairCode c d) then true
            else if isCaseIgnorable (pairCode c d) then followedByCased rest'
            else false
          else single
      end
  end.

(** Capital sigma U+03A3 becomes final sigma U+03C2 when it ends a word
    (the Final_Sigma condition) and small sigma U+03C3 otherwise. *)
Definition lowerSigma (afterCased : bool) (rest : string) : N :=
  if afterCased && negb (followedByCased rest) then 962%N else 963%N.

(** The text is lowered character by character; [afterCased] carries the
    context that the sigma rule needs. *)
Fixpoint lowerFrom (afterCased : bool) (s : string) : string :=
  match s with
  | EmptyString => EmptyString
  | String c rest =>
      let single :=
        if isAsciiChar c
        then String (toLowerCaseChar c) (lowerFrom (contextAfter afterCased (code c)) rest)
        else String c (lowerFrom false rest) in
      match rest with
      | EmptyString => single
      | String d rest' =>
          if isPair c d then
            let cp := pairCode c d in
            encodePair (if (cp =? 931)%N then lowerSigma afterCased rest'
                        else lowerCode cp)
            +:+ lowerFrom (contextAfter afterCased cp) rest'
          else single
      end
  end.

(** [String.prototype.toLowerCase] *)
Definition toLowerCase (s : string) : string := lowerFrom false s.

(** The upper-case partner of a lower-case letter, used to describe
    strings that differ only in letter case. *)
Definition toUpperCaseChar (c : ascii) : ascii :=
  let n := N_of_ascii c in
  if ((97 <=? n) && (n <=? 122))%N then ascii_of_N (n - 32) else c.

(** [hay.startsWith(needle)] *)
Fixpoint startsWith (hay needle : string) : bool :=
  match needle, hay with
  | EmptyString, _ => true
  | String _ _, EmptyString => false
  | String a needle', String b hay' =>
      if Ascii.eqb a b then startsWith hay' needle' else false
  end.

(** [hay.includes(needle)]: [needle] starts at some position of [hay].
    The empty needle is included in every string. *)
Fixpoint includes (hay needle : string) : bool :=
  startsWith hay needle
  || match hay with
     | EmptyString => false
     | String _ hay' => includes hay' needle
     end.

(** What "occurs as a substring" means. *)
Definition occursIn (needle hay : string) : Prop :=
  exists before after : string, hay = before +:+ needle +:+ after.

End JsString.

Import JsString.

(** ** Console, completions and the monad of the module *)

(** One constructor per [console.log] call of the file. *)
Inductive LogEntry : Type :=
| LogNoKey
| LogNotArray (text : string)
| LogExtracted (validTags : list string) (prompt : string)
| LogFailed (shown : string)
| LogMatched (tags : list string) (phrase : string) (bestScore : Z) (total : nat).

Definition Console : Type := list LogEntry.

(** A thrown value, as far as the [catch] block looks at it: an [Error]
    object whose message is a string; any other value that converts to a
    string, kept as that text; or a value that a template literal cannot
    convert (a [Symbol], an object without a string conversion, an [Error]
    whose message is such a value), kept as what the conversion throws. *)
Inductive Thrown : Type :=
| ErrorObject (message : string)
| OtherValue (text : string)
| Unprintable (raised : Thrown).

Inductive Completion (A : Type) : Type :=
| Normal (a : A)
| Throw (e : Thrown).
Arguments Normal {A} a.
Arguments Throw {A} e.

Definition M (A : Type) : Type := Console -> Completion A * Console.

Definition ret {A} (a : A) : M A := fun out => (Normal a, out).

Definition bind {A B} (m : M A) (k : A -> M B) : M B :=
  fun out =>
    match m out with
    | (Normal a, out') => k a out'
    | (Throw e, out') => (Throw e, out')
    end.

Definition throw {A} (e : Thrown) : M A := fun out => (Throw e, out).

(** [try { body } catch (error) { handler }] *)
Definition try_catch {A} (body : M A) (handler : Thrown -> M A) : M A :=
  fun out =>
    match body out with
    | (Normal a, out') => (Normal a, out')
    | (Throw e, out') => handler e out'
    end.

Definition console_log (entry : LogEntry) : M unit :=
  fun out => (Normal tt, out ++ [entry]).

(** A call into the host that may itself throw. *)
Definition lift {A} (c : Completion A) : M A := fun out => (c, out).

Declare Scope js_scope.
Delimit Scope js_scope with js.
Notation "x <- m ;; k" := (bind m (fun x => k))
  (at level 100, m at next level, right associativity) : js_scope.
Notation "m ;;; k" := (bind m (fun _ => k))
  (at level 100, right associativity) : js_scope.
Local Open Scope js_scope.

(** [returns m out v]: started on console [out], [m] completes normally
    with value [v]. *)
Definition returns {A} (m : M A) (out : Console) (v : A) : Prop :=
  (m out).1 = Normal v.

(** ** The tag matcher *)

(** The pair of loop variables [bestIndex], [bestScore]. *)
Record Best : Type := { bestIndex : Z; bestScore : Z }.

(** Inner loop, lines 78-84: [phrase] is already lower-cased.
    [for (const tag of tags) if (phrase.includes(tag.toLowerCase())) score++] *)
Definition scoreLoop (phrase : string) (tags : list string) (score : Z) : Z :=
  fold_left
    (fun score tag => if includes phrase (toLowerCase tag) then score + 1 else score)
    tags score.

(** Outer loop, lines 76-90, from index [i] over the phrases not yet
    visited. *)
Fixpoint phraseLoop (tags : list string) (i : Z) (rest : list string)
    (best : Best) : Best :=
  match rest with
  | [] => best
  | p :: rest' =>
      let phrase := toLowerCase p in
      let score := scoreLoop phrase tags 0 in
      phraseLoop tags (i + 1) rest'
        (if score >? bestScore best
         then {| bestIndex := i; bestScore := score |}
         else best)
  end.

(** The loop variables when the outer loop exits. *)
Definition scanPhrases (phrases tags : list string) : Best :=
  phraseLoop tags 0 phrases {| bestIndex := -1; bestScore := 0 |}.

(** [phrases[bestIndex]] inside the log line; an absent element prints as
    [undefined]. *)
Definition phraseAt (phrases : list string) (i : Z) : string :=
  default "undefined" (phrases !! Z.to_nat i).

(** [findClosestPhraseByTags(tags)], lines 70-97.  The phrase bank comes
    from [getPhrases()] of [./embeddings]; it is a parameter here. *)
Definition findClosestPhraseByTags (getPhrases : list string)
    (tags : list string) : M Z :=
  let phrases := getPhrases in
  let best := scanPhrases phrases tags in
  (if 0 <=? bestIndex best
   then console_log (LogMatched tags (phraseAt phrases (bestIndex best))
                       (bestScore best) (length tags))
   else ret tt) ;;;
  ret (bestIndex best).

(** The score of one phrase of the bank, as the outer loop computes it. *)
Definition phraseScore (tags : list string) (p : string) : Z :=
  scoreLoop (toLowerCase p) tags 0.

(** The score as the documentation words it: the number of tags whose
    lower-cased form is included in the lower-cased phrase text. *)
Definition countMatchingTags (tags : list string) (p : string) : Z :=
  Z.of_nat
    (length (List.filter (fun tag => includes (toLowerCase p) (toLowerCase tag)) tags)).

(** The best score over all phrases of the bank (0 for the empty bank). *)
Definition maxScore (tags phrases : list string) : Z :=
  foldr Z.max 0 (phraseScore tags <$> phrases).

(** [firstBest tags seen best]: the loop variables [best] describe the
    phrases [seen] so far.  Either no phrase has beaten the initial score 0
    and the index is still -1, or the index points at the first phrase of
    [seen] that carries the largest score, which is positive. *)
Definition firstBest (tags seen : list string) (best : Best) : Prop :=
  (bestIndex best = -1 /\ bestScore best = 0 /\
   forall (j : nat) q, seen !! j = Some q -> phraseScore tags q = 0)
  \/
  (exists (i : nat) p,
      bestIndex best = Z.of_nat i /\ seen !! i = Some p /\
      bestScore best = phraseScore tags p /\ 0 < phraseScore tags p /\
      (forall (j : nat) q, seen !! j = Some q ->
                           phraseScore tags q <= phraseScore tags p) /\
      (forall (j : nat) q, (j < i)%nat -> seen !! j = Some q ->
                           phraseScore tags q < phraseScore tags p)).

(** Two strings that differ only in letter case: position by position the
    characters are equal, or one is a lower-case letter and the other its
    upper-case partner. *)
Inductive sameUpToCase : string -> string -> Prop :=
| sameEmpty : sameUpToCase "" ""
| sameChar c s t :
    sameUpToCase s t -> sameUpToCase (String c s) (String c t)
| sameRaised c s t :
    sameUpToCase s t -> sameUpToCase (String c s) (String (toUpperCaseChar c) t)
| sameLowered c s t :
    sameUpToCase s t -> sameUpToCase (String (toUpperCaseChar c) s) (String c t).

(** The same relation as a test, on strings and on lists of strings. *)
Fixpoint sameUpToCaseb (s t : string) : bool :=
  match s, t with
  | EmptyString, EmptyString => true
  | String a s', String b t' =>
      (Ascii.eqb a b || Ascii.eqb b (toUpperCaseChar a) || Ascii.eqb a (toUpperCaseChar b))
      && sameUpToCaseb s' t'
  | _, _ => false
  end.

Fixpoint allSameUpToCaseb (ss ts : list string) : bool :=
  match ss, ts with
  | [], [] => true
  | s :: ss', t :: ts' => sameUpToCaseb s t && allSameUpToCaseb ss' ts'
  | _, _ => false
  end.

(** ** The tag vocabulary *)

Definition TAGS : list string :=
  [ "piano"; "guitar";
    "sad"; "melancholic"; "nostalgic"; "hopeful"; "peaceful"; "dark"; "lonely";
    "slow"; "mellow"; "sleepy"; "upbeat"; "groovy"; "bossa nova";
    "vinyl crackle"; "ambient"; "spacey"; "bass-heavy"; "minimal";
    "rain"; "ocean"; "night"; "cafe"; "winter"; "home"; "nature"; "space";
    "cozy"; "warm"; "dreamy"; "focus"; "jazz"; "chill" ].

(** [new Set<string>(TAGS)] *)
Definition TAG_SET : gset string := list_to_set TAGS.

(** ** The host: environment, SDK client and [JSON.parse] *)

#[local] Set Warnings "-register-all".

Inductive JSON : Type :=
| JNull
| JBool (b : bool)
| JNumber (numeral : string)
| JString (s : string)
| JArray (items : list JSON)
| JObject (members : list (string * JSON)).

Definition typeof (v : JSON) : string :=
  match v with
  | JBool _ => "boolean"
  | JNumber _ => "number"
  | JString _ => "string"
  | JNull | JArray _ | JObject _ => "object"
  end.

Definition Array_isArray (v : JSON) : bool :=
  match v with JArray _ => true | _ => false end.

Record Message : Type := { role : string; message_content : string }.

Record Request : Type :=
  { model : string; max_tokens : Z; system : string; messages : list Message }.

Inductive ContentBlock : Type :=
| TextBlock (text : string)
| OtherBlock (type : string).

Record Response : Type := { content : list ContentBlock }.

(** Everything [extractTags] obtains from outside the module.  Each call
    that can fail is a [Completion]: a rejected promise under [await] and a
    throwing built-in are both a [Throw]. *)
Record Host : Type :=
  { ANTHROPIC_API_KEY : option string;
    new_Anthropic : Completion unit;
    messages_create : Request -> Completion Response;
    JSON_parse : string -> Completion JSON;
    (** the empty text is not JSON: [JSON.parse('')] is a [SyntaxError] *)
    JSON_parse_empty :
      JSON_parse "" = Throw (ErrorObject "Unexpected end of JSON input") }.

(** ** Tag extraction *)

Definition quote : string := String (ascii_of_nat 34) "".

(** A JSON string literal for a text without special characters. *)
Definition quoted (s : string) : string := quote +:+ s +:+ quote.

Definition SYSTEM_PROMPT : string :=
  "You are a music tag extractor for a lofi music discovery app. Given a user's description, pick 2-5 tags from this vocabulary that best match their vibe:

" +:+ String.concat ", " TAGS +:+ "

Respond with ONLY a JSON array of tags, nothing else. Example: ["
  +:+ quoted "sad" +:+ ", " +:+ quoted "piano" +:+ ", " +:+ quoted "rain" +:+ "]".

(** [!process.env.ANTHROPIC_API_KEY]: unset and empty are both falsy. *)
Definition keyMissing (key : option string) : bool :=
  match key with
  | None => true
  | Some EmptyString => true
  | Some (String _ _) => false
  end.

(** [TAG_SET.has(t)]: a [Set] compares strings exactly, and no value that
    is not a string equals one of its members. *)
Definition TAG_SET_has (t : JSON) : bool :=
  match t with
  | JString s => bool_decide (s ∈ TAG_SET)
  | _ => false
  end.

(** The filter predicate of line 53. *)
Definition isValidTag (t : JSON) : bool :=
  String.eqb (typeof t) "string" && TAG_SET_has t.

(** The type guard [t is string]: the kept values, read as strings. *)
Definition asStrings (values : list JSON) : list string :=
  omap (fun v => match v with JString s => Some s | _ => None end) values.

(** [response.content[0].type === 'text' ? response.content[0].text : ''];
    reading [.type] of a missing first block is a [TypeError]. *)
Definition firstText (response : Response) : Completion string :=
  match content response with
  | [] => Throw (ErrorObject "Cannot read properties of undefined (reading 'type')")
  | TextBlock text :: _ => Normal text
  | OtherBlock _ :: _ => Normal ""
  end.

Definition request (prompt : string) : Request :=
  {| model := "claude-haiku-4-5-20251001";
     max_tokens := 100;
     system := SYSTEM_PROMPT;
     messages := [ {| role := "user"; message_content := prompt |} ] |}.

(** The [try] block, lines 28-57. *)
Definition extractTags_try (h : Host) (prompt : string) : M (list string) :=
  if keyMissing (ANTHROPIC_API_KEY h) then
    console_log LogNoKey ;;;
    ret []
  else
    client <- lift (new_Anthropic h) ;;
    response <- lift (messages_create h (request prompt)) ;;
    text <- lift (firstText response) ;;
    tags <- lift (JSON_parse h text) ;;
    if negb (Array_isArray tags) then
      console_log (LogNotArray text) ;;;
      ret []
    else
      let validTags :=
        asStrings (List.filter isValidTag
                     (match tags with JArray items => items | _ => [] end)) in
      console_log (LogExtracted validTags prompt) ;;;
      ret validTags.

(** [`${error instanceof Error ? error.message : error}`]: the conversion
    to a string inside the template literal, which throws for a value
    without a string form. *)
Definition shown (error : Thrown) : Completion string :=
  match error with
  | ErrorObject message => Normal message
  | OtherValue text => Normal text
  | Unprintable raised => Throw raised
  end.

(** The [catch] block, lines 59-62.  Nothing encloses it: what it throws
    leaves the function. *)
Definition extractTags_catch (error : Thrown) : M (list string) :=
  text <- lift (shown error) ;;
  console_log (LogFailed text) ;;;
  ret [].

(** How the promise of an [async] function settles. *)
Inductive Settled (A : Type) : Type :=
| Resolved (value : A)
| Rejected (reason : Thrown).
Arguments Resolved {A} value.
Arguments Rejected {A} reason.

Definition async {A} (body : M A) (out : Console) : Settled A * Console :=
  match body out with
  | (Normal a, out') => (Resolved a, out')
  | (Throw e, out') => (Rejected e, out')
  end.

(** [extractTags(prompt)], lines 26-63. *)
Definition extractTags (h : Host) (prompt : string) (out : Console)
    : Settled (list string) * Console :=
  async (try_catch (extractTags_try h prompt) extractTags_catch) out.

(** The ways the external call can fail, as the contract lists them. *)
Inductive ExtractionFailure (h : Host) (prompt : string) : Prop :=
| MissingCredential :
    keyMissing (ANTHROPIC_API_KEY h) = true -> ExtractionFailure h prompt
| ClientFailure e :
    new_Anthropic h = Throw e -> ExtractionFailure h prompt
| NetworkError e :
    messages_create h (request prompt) = Throw e -> ExtractionFailure h prompt
| EmptyResponse r :
    messages_create h (request prompt) = Normal r ->
    content r = [] -> ExtractionFailure h prompt
| NonTextResponse r type blocks :
    messages_create h (request prompt) = Normal r ->
    content r = OtherBlock type :: blocks -> ExtractionFailure h prompt
| InvalidJSON r text e :
    messages_create h (request prompt) = Normal r ->
    firstText r = Normal text ->
    JSON_parse h text = Throw e -> ExtractionFailure h prompt
| NonArrayJSON r text v :
    messages_create h (request prompt) = Normal r ->
    firstText r = Normal text ->
    JSON_parse h text = Normal v ->
    Array_isArray v = false -> ExtractionFailure h prompt.

(** A host on which the model answers with a five-element array, two of
    its elements canonical tags; [JSON_parse] knows this one text and the
    empty text.  Used to run [extractTags] on a concrete input. *)
Definition sampleText : string :=
  "[" +:+ quoted "rain" +:+ ", " +:+ quoted "Piano" +:+ ", 3, "
  +:+ quoted "piano" +:+ ", " +:+ quoted "loud" +:+ "]".

Definition sampleHost : Host :=
  {| ANTHROPIC_API_KEY := Some "sk-ant-test";
     new_Anthropic := Normal tt;
     messages_create := fun _ => Normal {| content := [TextBlock sampleText] |};
     JSON_parse := fun text =>
       if String.eqb text sampleText
       then Normal (JArray [JString "rain"; JString "Piano"; JNumber "3";
                            JString "piano"; JString "loud"])
       else if String.eqb text ""
       then Throw (ErrorObject "Unexpected end of JSON input")
       else Throw (ErrorObject "Unexpected token");
     JSON_parse_empty := eq_refl |}.

(** The same host with the credential unset. *)
Definition hostWithoutKey : Host :=
  {| ANTHROPIC_API_KEY := None;
     new_Anthropic := new_Anthropic sampleHost;
     messages_create := messages_create sampleHost;
     JSON_parse := JSON_parse sampleHost;
     JSON_parse_empty := JSON_parse_empty sampleHost |}.

(** A host on which the model call is rejected with a [Symbol]; converting
    it to a string is a [TypeError]. *)
Definition symbolHost : Host :=
  {| ANTHROPIC_API_KEY := Some "sk-ant-test";
     new_Anthropic := Normal tt;
     messages_create := fun _ =>
       Throw (Unprintable (ErrorObject "Cannot convert a Symbol value to a string"));
     JSON_parse := JSON_parse sampleHost;
     JSON_parse_empty := JSON_parse_empty sampleHost |}.

(** A host on which the model call is rejected with a connection error. *)
Definition offlineHost : Host :=
  {| ANTHROPIC_API_KEY := Some "sk-ant-test";
     new_Anthropic := Normal tt;
     messages_create := fun _ => Throw (ErrorObject "Connection error.");
     JSON_parse := JSON_parse sampleHost;
     JSON_parse_empty := JSON_parse_empty sampleHost |}.

(** [sampleHost] with a second content block after the text block. *)
Definition twoBlockHost : Host :=
  {| ANTHROPIC_API_KEY := ANTHROPIC_API_KEY sampleHost;
     new_Anthropic := new_Anthropic sampleHost;
     messages_create := fun _ =>
       Normal {| content := [TextBlock sampleText; OtherBlock "tool_use"] |};
     JSON_parse := JSON_parse sampleHost;
     JSON_parse_empty := JSON_parse_empty sampleHost |}.

(** A host on which the model answers with canonical tags only. *)
Definition tidyText : string :=
  "[" +:+ quoted "sad" +:+ ", " +:+ quoted "rain" +:+ "]".

Definition tidyHost : Host :=
  {| ANTHROPIC_API_KEY := Some "sk-ant-test";
     new_Anthropic := Normal tt;
     messages_create := fun _ => Normal {| content := [TextBlock tidyText] |};
     JSON_parse := fun text =>
       if String.eqb text tidyText
       then Normal (JArray [JString "sad"; JString "rain"])
       else if String.eqb text ""
       then Throw (ErrorObject "Unexpected end of JSON input")
       else Throw (ErrorObject "Unexpected token");
     JSON_parse_empty := eq_refl |}.

(** * Properties *)

(** ** Strings *)

Section StringFacts.

Lemma append_cons c (s t : string) : String c s +:+ t = String c (s +:+ t).
Proof. reflexivity. Qed.

Lemma append_empty (t : string) : "" +:+ t = t.
Proof. reflexivity. Qed.

Lemma startsWith_spec hay needle :
  startsWith hay needle = true <-> exists after, hay = needle +:+ after.
Proof.
  revert hay; induction needle as [|a needle IH]; intros hay; simpl.
  - split; [intros _; by exists hay | by destruct hay].
  - destruct hay as [|b hay]; simpl.
    + split; [discriminate | by intros [? ?]].
    + setoid_rewrite append_cons.
      destruct (Ascii.eqb_spec a b) as [->|Hne].
      * rewrite IH. split; intros [after E]; exists after; congruence.
      * split; [discriminate | intros [after E]; congruence].
Qed.

Lemma includes_spec hay needle :
  includes hay needle = true <-> occursIn needle hay.
Proof.
  unfold occursIn. induction hay as [|b hay IH]; cbn [includes].
  - rewrite orb_false_r, startsWith_spec. split.
    + intros [after E]. by exists "", after.
    + intros [[|x before] [after E]]; [by exists after | discriminate].
  - rewrite orb_true_iff, IH, startsWith_spec. split.
    + intros [[after E] | (before & after & E)].
      * by exists "", after.
      * exists (String b before), after. by rewrite append_cons, E.
    + intros [[|x before] [after E]].
      * left. by exists after.
      * right. exists before, after. rewrite append_cons in E. congruence.
Qed.

Lemma toLowerCaseChar_raise c :
  toLowerCaseChar (toUpperCaseChar c) = toLowerCaseChar c.
Proof. by destruct c as [[] [] [] [] [] [] [] []]. Qed.

Lemma toLowerCaseChar_idemp c :
  toLowerCaseChar (toLowerCaseChar c) = toLowerCaseChar c.
Proof. by destruct c as [[] [] [] [] [] [] [] []]. Qed.

Lemma isAsciiChar_raise c : isAsciiChar (toUpperCaseChar c) = isAsciiChar c.
Proof. by destruct c as [[] [] [] [] [] [] [] []]. Qed.

Lemma isPair_ascii c d : isAsciiChar c = true -> isPair c d = false.
Proof.
  unfold isAsciiChar, isPair, between. intros H%N.ltb_lt.
  destruct (N.leb_spec 194 (code c)); [lia | done].
Qed.

(** On a Basic Latin character the lowering is the character map, whatever
    the context. *)
Lemma lowerFrom_ascii_cons afterCased c rest :
  isAsciiChar c = true ->
  lowerFrom afterCased (String c rest)
  = String (toLowerCaseChar c) (lowerFrom (contextAfter afterCased (code c)) rest).
Proof.
  intros Hc. destruct rest as [|d rest']; cbn [lowerFrom]; rewrite Hc; [done|].
  by rewrite (isPair_ascii c d Hc).
Qed.

Lemma sameUpToCase_lowerFrom s t :
  sameUpToCase s t -> isAscii s = true ->
  forall f g, lowerFrom f s = lowerFrom g t.
Proof.
  induction 1 as [|c s t _ IH|c s t _ IH|c s t _ IH]; cbn [isAscii];
    [done|..]; rewrite andb_true_iff; intros [Hc Hs] f g.
  - rewrite !lowerFrom_ascii_cons by done. f_equal. by apply IH.
  - rewrite !lowerFrom_ascii_cons by (by rewrite ?isAsciiChar_raise).
    rewrite toLowerCaseChar_raise. f_equal. by apply IH.
  - rewrite isAsciiChar_raise in Hc. rewrite !lowerFrom_ascii_cons
      by (by rewrite ?isAsciiChar_raise).
    rewrite toLowerCaseChar_raise. f_equal. by apply IH.
Qed.

Lemma sameUpToCase_isAscii s t : sameUpToCase s t -> isAscii s = isAscii t.
Proof.
  induction 1 as [|c s t _ IH|c s t _ IH|c s t _ IH]; cbn [isAscii];
    rewrite ?isAsciiChar_raise, ?IH; done.
Qed.

(** Texts of Basic Latin characters that differ only in letter case have
    the same lower-cased form. *)
Lemma sameUpToCase_lower s t :
  isAscii s = true -> sameUpToCase s t -> toLowerCase s = toLowerCase t.
Proof. intros Hs Hst. by apply sameUpToCase_lowerFrom. Qed.

Lemma sameUpToCaseb_sound s t : sameUpToCaseb s t = true -> sameUpToCase s t.
Proof.
  revert t. induction s as [|a s IH]; intros [|b t]; simpl; try discriminate.
  - constructor.
  - rewrite andb_true_iff, !orb_true_iff. intros [[[E|E]|E] Hst];
      apply Ascii.eqb_eq in E; subst; constructor; by apply IH.
Qed.

Lemma allSameUpToCaseb_sound (ss ts : list string) :
  allSameUpToCaseb ss ts = true -> Forall2 sameUpToCase ss ts.
Proof.
  revert ts. induction ss as [|s ss IH]; intros [|t ts]; simpl; try discriminate.
  - constructor.
  - rewrite andb_true_iff. intros [Hst Hrest].
    constructor; [by apply sameUpToCaseb_sound | by apply IH].
Qed.

Lemma sameUpToCase_refl s : sameUpToCase s s.
Proof. induction s; constructor; done. Qed.

End StringFacts.

(** ** The two loops of the matcher *)

Section Matcher.

Variable tags : list string.

Lemma scoreLoop_shift phrase (ts : list string) (score : Z) :
  scoreLoop phrase ts score = score + scoreLoop phrase ts 0.
Proof.
  unfold scoreLoop. revert score.
  induction ts as [|t ts IH]; intros score; simpl; [lia|].
  rewrite IH, (IH (if includes _ _ then _ else _)).
  destruct (includes phrase (toLowerCase t)); lia.
Qed.

Lemma scoreLoop_cons phrase t (ts : list string) :
  scoreLoop phrase (t :: ts) 0 =
  (if includes phrase (toLowerCase t) then 1 else 0) + scoreLoop phrase ts 0.
Proof.
  change (scoreLoop phrase (t :: ts) 0)
    with (scoreLoop phrase ts (if includes phrase (toLowerCase t) then 0 + 1 else 0)).
  rewrite scoreLoop_shift. by destruct (includes phrase (toLowerCase t)).
Qed.

Lemma scoreLoop_app phrase (ts us : list string) :
  scoreLoop phrase (ts ++ us) 0 = scoreLoop phrase ts 0 + scoreLoop phrase us 0.
Proof.
  induction ts as [|t ts IH]; [done|].
  rewrite <- app_comm_cons, !scoreLoop_cons, IH. lia.
Qed.

Lemma scoreLoop_count phrase (ts : list string) :
  scoreLoop phrase ts 0 =
  Z.of_nat (length (List.filter (fun t => includes phrase (toLowerCase t)) ts)).
Proof.
  induction ts as [|t ts IH]; [done|].
  rewrite scoreLoop_cons, IH. simpl.
  destruct (includes phrase (toLowerCase t)); simpl; lia.
Qed.

Lemma phraseScore_count p : phraseScore tags p = countMatchingTags tags p.
Proof. apply scoreLoop_count. Qed.

Lemma phraseScore_nonneg p : 0 <= phraseScore tags p.
Proof. rewrite phraseScore_count. unfold countMatchingTags. lia. Qed.

Lemma phraseScore_zero p :
  phraseScore tags p = 0 <->
  forall t, t ∈ tags -> ~ occursIn (toLowerCase t) (toLowerCase p).
Proof.
  unfold phraseScore. induction tags as [|t ts IH].
  - split; [intros _ t Ht; by apply elem_of_nil in Ht | done].
  - rewrite scoreLoop_cons.
    pose proof (scoreLoop_count (toLowerCase p) ts) as Hc.
    destruct (includes (toLowerCase p) (toLowerCase t)) eqn:E.
    + split; [lia|]. intros H. exfalso.
      apply (H t); [left | by apply includes_spec].
    + rewrite Z.add_0_l, IH. split.
      * intros H u Hu. apply elem_of_cons in Hu as [->|Hu]; [|by apply H].
        rewrite <- includes_spec, E. discriminate.
      * intros H u Hu. apply H. by right.
Qed.

(** One turn of the outer loop keeps [firstBest]. *)
Lemma firstBest_step (seen : list string) p best :
  firstBest tags seen best ->
  firstBest tags (seen ++ [p])
    (if phraseScore tags p >? bestScore best
     then {| bestIndex := Z.of_nat (length seen); bestScore := phraseScore tags p |}
     else best).
Proof.
  intros Hbest. pose proof (phraseScore_nonneg p) as Hp.
  assert (Hlast : (seen ++ [p]) !! length seen = Some p).
  { rewrite lookup_app_r by lia. by rewrite Nat.sub_diag. }
  assert (Hsplit : forall (j : nat) q, (seen ++ [p]) !! j = Some q ->
                     seen !! j = Some q \/ (j = length seen /\ q = p)).
  { intros j q Hj. apply lookup_app_Some in Hj as [Hj|[Hge Hj]]; [by left|].
    right. apply list_lookup_singleton_Some in Hj as [Hj ->]. split; [lia|done]. }
  rewrite Z.gtb_ltb. destruct (Z.ltb_spec (bestScore best) (phraseScore tags p)) as [Hlt|Hle].
  - right. exists (length seen), p. simpl.
    destruct Hbest as [(_ & Hs & Hall) | (i & q & _ & _ & Hs & Hpos & Hmax & _)].
    + repeat split; try done; try lia.
      * intros j q Hj. destruct (Hsplit j q Hj) as [Hj'|[_ ->]]; [|lia].
        rewrite (Hall j q Hj'). lia.
      * intros j q Hlt' Hj. destruct (Hsplit j q Hj) as [Hj'|[? _]]; [|lia].
        rewrite (Hall j q Hj'). lia.
    + repeat split; try done; try lia.
      * intros j r Hj. destruct (Hsplit j r Hj) as [Hj'|[_ ->]]; [|lia].
        specialize (Hmax j r Hj'). lia.
      * intros j r Hlt' Hj. destruct (Hsplit j r Hj) as [Hj'|[? _]]; [|lia].
        specialize (Hmax j r Hj'). lia.
  - destruct Hbest as [(Hi & Hs & Hall) | (i & q & Hi & Hq & Hs & Hpos & Hmax & Hfirst)].
    + left. repeat split; try done.
      intros j r Hj. destruct (Hsplit j r Hj) as [Hj'|[_ ->]]; [by eapply Hall | lia].
    + right. exists i, q. repeat split; try done.
      * by apply lookup_app_l_Some.
      * intros j r Hj. destruct (Hsplit j r Hj) as [Hj'|[_ ->]]; [by eapply Hmax | lia].
      * intros j r Hlt Hj. destruct (Hsplit j r Hj) as [Hj'|[-> _]]; [by eapply Hfirst|].
        apply lookup_lt_Some in Hq. lia.
Qed.

Lemma phraseLoop_firstBest (rest seen : list string) best :
  firstBest tags seen best ->
  firstBest tags (seen ++ rest) (phraseLoop tags (Z.of_nat (length seen)) rest best).
Proof.
  revert seen best. induction rest as [|p rest IH]; intros seen best Hbest; simpl.
  - by rewrite app_nil_r.
  - replace (Z.of_nat (length seen) + 1) with (Z.of_nat (length (seen ++ [p])))
      by (rewrite length_app; simpl; lia).
    rewrite (cons_middle p seen rest), app_assoc.
    apply IH. by apply firstBest_step.
Qed.

Lemma scanPhrases_firstBest (phrases : list string) :
  firstBest tags phrases (scanPhrases phrases tags).
Proof.
  apply (phraseLoop_firstBest phrases []).
  left. repeat split; done.
Qed.

End Matcher.

(** ** What [findClosestPhraseByTags] returns *)

Section MatcherResult.

Lemma findClosest_run (phrases tags : list string) (out : Console) :
  exists out',
    findClosestPhraseByTags phrases tags out
    = (Normal (bestIndex (scanPhrases phrases tags)), out').
Proof.
  unfold findClosestPhraseByTags, bind, ret, console_log.
  destruct (0 <=? bestIndex (scanPhrases phrases tags)); eexists; reflexivity.
Qed.

Lemma findClosest_returns (phrases tags : list string) (out : Console) :
  returns (findClosestPhraseByTags phrases tags) out
    (bestIndex (scanPhrases phrases tags)).
Proof.
  unfold returns. destruct (findClosest_run phrases tags out) as [out' ->]. done.
Qed.

Lemma returns_inj {A} (m : M A) out (v w : A) :
  returns m out v -> returns m out w -> v = w.
Proof. unfold returns. congruence. Qed.

Lemma maxScore_cons (tags phrases : list string) p :
  maxScore tags (p :: phrases) = Z.max (phraseScore tags p) (maxScore tags phrases).
Proof. reflexivity. Qed.

Lemma maxScore_nonneg (tags phrases : list string) : 0 <= maxScore tags phrases.
Proof.
  induction phrases as [|p phrases IH]; [done|]. rewrite maxScore_cons. lia.
Qed.

Lemma maxScore_upper (tags phrases : list string) q :
  q ∈ phrases -> phraseScore tags q <= maxScore tags phrases.
Proof.
  induction phrases as [|p phrases IH]; intros Hq.
  - by apply elem_of_nil in Hq.
  - rewrite maxScore_cons.
    apply elem_of_cons in Hq as [->|Hq]; [lia|]. specialize (IH Hq). lia.
Qed.

Lemma maxScore_least (tags phrases : list string) (m : Z) :
  0 <= m -> (forall q, q ∈ phrases -> phraseScore tags q <= m) ->
  maxScore tags phrases <= m.
Proof.
  intros Hm. induction phrases as [|p phrases IH]; intros Hall; [done|].
  rewrite maxScore_cons.
  pose proof (Hall p ltac:(left)).
  assert (maxScore tags phrases <= m)
    by (apply IH; intros q Hq; apply Hall; by right).
  lia.
Qed.

Lemma scanPhrases_bestScore (phrases tags : list string) :
  bestScore (scanPhrases phrases tags) = maxScore tags phrases.
Proof.
  destruct (scanPhrases_firstBest tags phrases)
    as [(_ & -> & Hall) | (i & p & _ & Hp & -> & Hpos & Hmax & _)].
  - pose proof (maxScore_nonneg tags phrases).
    assert (maxScore tags phrases <= 0); [|lia].
    apply maxScore_least; [done|]. intros q Hq.
    apply list_elem_of_lookup in Hq as [j Hj]. by rewrite (Hall j q Hj).
  - assert (maxScore tags phrases <= phraseScore tags p).
    { apply maxScore_least; [lia|]. intros q Hq.
      apply list_elem_of_lookup in Hq as [j Hj]. by eapply Hmax. }
    assert (phraseScore tags p <= maxScore tags phrases); [|lia].
    apply maxScore_upper. apply list_elem_of_lookup. by exists i.
Qed.

Lemma scanPhrases_no_match (phrases tags : list string) :
  bestIndex (scanPhrases phrases tags) = -1 <-> maxScore tags phrases = 0.
Proof.
  rewrite <- scanPhrases_bestScore.
  destruct (scanPhrases_firstBest tags phrases)
    as [(Hi & Hs & _) | (i & p & Hi & _ & Hs & Hpos & _)]; split; lia.
Qed.

Lemma maxScore_zero (tags phrases : list string) :
  maxScore tags phrases = 0 <->
  forall p t, p ∈ phrases -> t ∈ tags ->
              ~ occursIn (toLowerCase t) (toLowerCase p).
Proof.
  split.
  - intros Hz p t Hp. apply phraseScore_zero.
    pose proof (maxScore_upper tags phrases p Hp).
    pose proof (phraseScore_nonneg tags p). lia.
  - intros Hno. pose proof (maxScore_nonneg tags phrases).
    assert (maxScore tags phrases <= 0); [|lia].
    apply maxScore_least; [done|]. intros q Hq.
    assert (phraseScore tags q = 0); [|lia].
    apply phraseScore_zero. intros t Ht. by apply Hno.
Qed.

Lemma scanPhrases_range (phrases tags : list string) :
  bestIndex (scanPhrases phrases tags) = -1 \/
  0 <= bestIndex (scanPhrases phrases tags) < Z.of_nat (length phrases).
Proof.
  destruct (scanPhrases_firstBest tags phrases)
    as [(Hi & _) | (i & p & Hi & Hp & _)]; [by left|right].
  apply lookup_lt_Some in Hp. lia.
Qed.

(** The loops read tags and phrases only through [toLowerCase]. *)
Lemma scoreLoop_lowered phrase (ts us : list string) (score : Z) :
  toLowerCase <$> ts = toLowerCase <$> us ->
  scoreLoop phrase ts score = scoreLoop phrase us score.
Proof.
  revert us score. unfold scoreLoop.
  induction ts as [|t ts IH]; intros [|u us] score; try done.
  rewrite !fmap_cons. intros [= Htu Hrest]. simpl. rewrite Htu. by apply IH.
Qed.

Lemma phraseLoop_lowered (ts us ps qs : list string) (i : Z) best :
  toLowerCase <$> ts = toLowerCase <$> us ->
  toLowerCase <$> ps = toLowerCase <$> qs ->
  phraseLoop ts i ps best = phraseLoop us i qs best.
Proof.
  intros Ht. revert qs i best.
  induction ps as [|p ps IH]; intros [|q qs] i best; try done.
  rewrite !fmap_cons. intros [= Hpq Hrest]. simpl. rewrite Hpq.
  rewrite (scoreLoop_lowered _ ts us 0 Ht). by apply IH.
Qed.

Lemma sameUpToCase_lowered (ss ts : list string) :
  Forall (fun s => isAscii s = true) ss -> Forall2 sameUpToCase ss ts ->
  toLowerCase <$> ss = toLowerCase <$> ts.
Proof.
  intros Hascii Hsame. revert Hascii.
  induction Hsame as [|s t ss ts Hst _ IH]; [done|].
  rewrite Forall_cons. intros [Hs Hss].
  by rewrite !fmap_cons, (sameUpToCase_lower s t Hs Hst), IH.
Qed.

End MatcherResult.

(** ** The matcher's contract *)

(** C1.  The score the scan gives a phrase is the number of tags whose
    lower-cased form occurs as a substring of the lower-cased phrase text.
    The call returns, and its value is determined by these scores: when no
    phrase beats the initial best score 0 the index stays -1; otherwise it
    is the index of a phrase whose positive score is the highest of the
    bank, and every phrase before it scores strictly less, so among phrases
    that tie on the highest score the first in bank order is returned. *)
Theorem findClosest_first_highest_score :
  forall (phrases tags : list string) (out : Console),
    (forall p, phraseScore tags p = countMatchingTags tags p) /\
    (forall p t, includes (toLowerCase p) (toLowerCase t) = true <->
                 occursIn (toLowerCase t) (toLowerCase p)) /\
    exists r : Z,
      returns (findClosestPhraseByTags phrases tags) out r /\
      ((r = -1 /\
        forall (j : nat) q, phrases !! j = Some q -> phraseScore tags q = 0)
       \/
       (exists (i : nat) p,
           r = Z.of_nat i /\ phrases !! i = Some p /\
           0 < phraseScore tags p /\
           (forall (j : nat) q, phrases !! j = Some q ->
                                phraseScore tags q <= phraseScore tags p) /\
           (forall (j : nat) q, (j < i)%nat -> phrases !! j = Some q ->
                                phraseScore tags q < phraseScore tags p))).
Proof.
  intros phrases tags out. split; [apply phraseScore_count|].
  split; [intros p t; apply includes_spec|].
  exists (bestIndex (scanPhrases phrases tags)).
  split; [apply findClosest_returns|].
  destruct (scanPhrases_firstBest tags phrases)
    as [(Hi & _ & Hall) | (i & p & Hi & Hp & _ & Hpos & Hmax & Hfirst)].
  - left. done.
  - right. exists i, p. done.
Qed.

(** C2.  The call returns -1 exactly when the best score over all phrases
    is 0, which is exactly when no tag occurs as a substring of any phrase;
    with an empty tag list it returns -1 whatever the phrase bank. *)
Theorem findClosest_no_match_iff_best_score_zero :
  forall (phrases tags : list string) (out : Console),
    (exists r : Z,
        returns (findClosestPhraseByTags phrases tags) out r /\
        (r = -1 <-> maxScore tags phrases = 0)) /\
    bestScore (scanPhrases phrases tags) = maxScore tags phrases /\
    (maxScore tags phrases = 0 <->
     forall p t, p ∈ phrases -> t ∈ tags ->
                 ~ occursIn (toLowerCase t) (toLowerCase p)) /\
    returns (findClosestPhraseByTags phrases []) out (-1).
Proof.
  intros phrases tags out. repeat split.
  - exists (bestIndex (scanPhrases phrases tags)).
    split; [apply findClosest_returns | apply scanPhrases_no_match].
  - apply scanPhrases_bestScore.
  - by apply maxScore_zero.
  - by apply maxScore_zero.
  - assert (bestIndex (scanPhrases phrases []) = -1) as <-;
      [|apply findClosest_returns].
    apply scanPhrases_no_match, maxScore_zero.
    intros p t _ Ht. by apply elem_of_nil in Ht.
Qed.

(** C5.  On the bank ["rainy piano night", "upbeat guitar jam"] the tags
    ["rain", "piano"] give index 0 with best score 2, and the tags
    ["space"] give -1. *)
Theorem findClosest_rainy_piano_bank :
  forall out : Console,
    returns (findClosestPhraseByTags
               ["rainy piano night"; "upbeat guitar jam"] ["rain"; "piano"]) out 0 /\
    bestScore (scanPhrases
                 ["rainy piano night"; "upbeat guitar jam"] ["rain"; "piano"]) = 2 /\
    returns (findClosestPhraseByTags
               ["rainy piano night"; "upbeat guitar jam"] ["space"]) out (-1).
Proof.
  intros out. split; [|split].
  - assert (bestIndex (scanPhrases ["rainy piano night"; "upbeat guitar jam"]
                         ["rain"; "piano"]) = 0) as <-
      by (vm_compute; reflexivity).
    apply findClosest_returns.
  - vm_compute. reflexivity.
  - assert (bestIndex (scanPhrases ["rainy piano night"; "upbeat guitar jam"]
                         ["space"]) = -1) as <-
      by (vm_compute; reflexivity).
    apply findClosest_returns.
Qed.

(** C7 as worded fails.  The phrase "οδοσ" and its upper-case form "ΟΔΟΣ"
    differ only in letter case, but [toLowerCase] turns a capital sigma at
    the end of a word into the final sigma: the tag "σ" occurs in the first
    phrase and not in the second, and the two calls return 0 and -1. *)
Lemma findClosest_case_change_final_sigma :
  toLowerCase "ΟΔΟΣ" = "οδος" /\
  (findClosestPhraseByTags ["οδοσ"] ["σ"] []).1 = Normal 0 /\
  (findClosestPhraseByTags ["ΟΔΟΣ"] ["σ"] []).1 = Normal (-1) /\
  (findClosestPhraseByTags ["οδοσ"] ["σ"] []).1
  <> (findClosestPhraseByTags ["ΟΔΟΣ"] ["σ"] []).1.
Proof.
  split; [vm_compute; reflexivity|].
  assert (H0 : (findClosestPhraseByTags ["οδοσ"] ["σ"] []).1 = Normal 0)
    by (vm_compute; reflexivity).
  assert (H1 : (findClosestPhraseByTags ["ΟΔΟΣ"] ["σ"] []).1 = Normal (-1))
    by (vm_compute; reflexivity).
  split; [done|]. split; [done|]. rewrite H0, H1. discriminate.
Qed.

(** C7, amended.  The call depends on the tags and the phrase texts only
    through their lower-cased forms: inputs whose elements have the same
    [toLowerCase] forms, position by position, give the same result.  In
    particular, on Basic Latin (ASCII) tags and phrase texts, changing the
    letter case of any tags and of any phrase texts does not change what
    the call returns. *)
Theorem findClosest_case_insensitive_on_ascii :
  forall (phrases phrases' tags tags' : list string) (out : Console),
    (toLowerCase <$> tags = toLowerCase <$> tags' ->
     toLowerCase <$> phrases = toLowerCase <$> phrases' ->
     (findClosestPhraseByTags phrases tags out).1
     = (findClosestPhraseByTags phrases' tags' out).1) /\
    (Forall (fun s => isAscii s = true) tags ->
     Forall (fun s => isAscii s = true) phrases ->
     Forall2 sameUpToCase tags tags' ->
     Forall2 sameUpToCase phrases phrases' ->
     (findClosestPhraseByTags phrases tags out).1
     = (findClosestPhraseByTags phrases' tags' out).1).
Proof.
  intros phrases phrases' tags tags' out.
  assert (Hlow : toLowerCase <$> tags = toLowerCase <$> tags' ->
                 toLowerCase <$> phrases = toLowerCase <$> phrases' ->
                 (findClosestPhraseByTags phrases tags out).1
                 = (findClosestPhraseByTags phrases' tags' out).1).
  { intros Ht Hp.
    destruct (findClosest_run phrases tags out) as [o1 ->].
    destruct (findClosest_run phrases' tags' out) as [o2 ->].
    unfold scanPhrases. by rewrite (phraseLoop_lowered tags tags' phrases phrases'). }
  split; [done|]. intros Hta Hpa Ht Hp.
  apply Hlow; by apply sameUpToCase_lowered.
Qed.

Lemma findClosest_case_insensitive_on_ascii_witness :
  (findClosestPhraseByTags ["Upbeat Guitar Jam"; "Rainy PIANO night"] ["RAIN"; "piano"] []).1
  = (findClosestPhraseByTags ["upbeat guitar jam"; "rainy piano NIGHT"] ["rain"; "Piano"] []).1.
Proof.
  apply (proj2 (findClosest_case_insensitive_on_ascii
                  ["Upbeat Guitar Jam"; "Rainy PIANO night"]
                  ["upbeat guitar jam"; "rainy piano NIGHT"]
                  ["RAIN"; "piano"] ["rain"; "Piano"] [])).
  - repeat constructor.
  - repeat constructor.
  - apply allSameUpToCaseb_sound. vm_compute. reflexivity.
  - apply allSameUpToCaseb_sound. vm_compute. reflexivity.
Defined.

(** C8.  The matcher never consults the vocabulary.  For every string
    [tag], in [TAGS] or not, the tag adds one to the score of a phrase
    exactly when its lower-cased form occurs in the lower-cased phrase
    text, and on a one-phrase bank that alone decides between index 0 and
    -1. *)
Theorem findClosest_scores_any_tag :
  forall (tag p : string) (before after : list string) (out : Console),
    (occursIn (toLowerCase tag) (toLowerCase p) ->
     phraseScore (before ++ tag :: after) p = phraseScore (before ++ after) p + 1 /\
     returns (findClosestPhraseByTags [p] [tag]) out 0) /\
    (~ occursIn (toLowerCase tag) (toLowerCase p) ->
     phraseScore (before ++ tag :: after) p = phraseScore (before ++ after) p /\
     returns (findClosestPhraseByTags [p] [tag]) out (-1)).
Proof.
  intros tag p before after out.
  assert (Hsplit : phraseScore (before ++ tag :: after) p
                   = phraseScore (before ++ after) p
                     + (if includes (toLowerCase p) (toLowerCase tag) then 1 else 0)).
  { unfold phraseScore. rewrite !scoreLoop_app, scoreLoop_cons. lia. }
  assert (Hone : bestIndex (scanPhrases [p] [tag])
                 = if includes (toLowerCase p) (toLowerCase tag) then 0 else -1).
  { unfold scanPhrases. simpl. by destruct (includes (toLowerCase p) (toLowerCase tag)). }
  pose proof (findClosest_returns [p] [tag] out) as Hret. rewrite Hone in Hret.
  rewrite <- includes_spec.
  destruct (includes (toLowerCase p) (toLowerCase tag)); split; intros H;
    try done; split; try done; lia.
Qed.

(** "rainy" is not in [TAGS], yet it scores on a phrase that contains it. *)
Lemma findClosest_scores_any_tag_witness :
  phraseScore (["piano"] ++ "rainy" :: ["night"]) "Rainy Piano Night"
  = phraseScore (["piano"] ++ ["night"]) "Rainy Piano Night" + 1 /\
  returns (findClosestPhraseByTags ["Rainy Piano Night"] ["rainy"]) [] 0.
Proof.
  apply (findClosest_scores_any_tag "rainy" "Rainy Piano Night" ["piano"] ["night"] []).
  apply includes_spec. vm_compute. reflexivity.
Defined.

(** C9.  The returned index is a function of the tag list and the phrase
    bank alone: two runs on equal tag lists and equal banks return equal
    indices, whatever the console held when each run started. *)
Theorem findClosest_deterministic :
  forall (phrases1 phrases2 tags1 tags2 : list string) (out1 out2 : Console),
    phrases1 = phrases2 -> tags1 = tags2 ->
    (findClosestPhraseByTags phrases1 tags1 out1).1
    = (findClosestPhraseByTags phrases2 tags2 out2).1.
Proof.
  intros phrases1 phrases2 tags1 tags2 out1 out2 -> ->.
  destruct (findClosest_run phrases2 tags2 out1) as [o1 ->].
  destruct (findClosest_run phrases2 tags2 out2) as [o2 ->].
  done.
Qed.

Lemma findClosest_deterministic_witness :
  (findClosestPhraseByTags ["rainy piano night"; "upbeat guitar jam"] ["rain"] []).1
  = (findClosestPhraseByTags ["rainy piano night"; "upbeat guitar jam"] ["rain"]
       [LogNoKey; LogFailed "timeout"]).1.
Proof. apply findClosest_deterministic; reflexivity. Defined.

(** C10.  The call returns -1 or an index of the bank, at least 0 and below
    the number of phrases; on the empty bank it returns -1 for every tag
    list. *)
Theorem findClosest_index_in_range :
  forall (phrases tags : list string) (out : Console),
    (exists r : Z,
        returns (findClosestPhraseByTags phrases tags) out r /\
        (r = -1 \/ 0 <= r < Z.of_nat (length phrases))) /\
    returns (findClosestPhraseByTags [] tags) out (-1).
Proof.
  intros phrases tags out. split.
  - exists (bestIndex (scanPhrases phrases tags)).
    split; [apply findClosest_returns | apply scanPhrases_range].
  - apply (findClosest_returns [] tags out).
Qed.

(** ** Tag extraction *)

Section TagExtraction.

Variable h : Host.
Variable prompt : string.

(** How the promise settles once the [catch] block has run on [error]. *)
Lemma catch_printable error text (out : Console) :
  shown error = Normal text ->
  async (extractTags_catch error) out = (Resolved [], out ++ [LogFailed text]).
Proof.
  intros H. unfold async, extractTags_catch, bind, lift, console_log, ret.
  by rewrite H.
Qed.

Lemma catch_unprintable error raised (out : Console) :
  shown error = Throw raised ->
  async (extractTags_catch error) out = (Rejected raised, out).
Proof.
  intros H. unfold async, extractTags_catch, bind, lift. by rewrite H.
Qed.

Lemma catch_resolved error (out out' : Console) (tags : list string) :
  async (extractTags_catch error) out = (Resolved tags, out') -> tags = [].
Proof.
  destruct (shown error) as [text|raised] eqn:E.
  - rewrite (catch_printable error text out E). by intros [= <- _].
  - rewrite (catch_unprintable error raised out E). discriminate.
Qed.

(** The paths through [extractTags], one per line. *)
Lemma extractTags_paths (out : Console) :
  extractTags h prompt out =
  if keyMissing (ANTHROPIC_API_KEY h) then (Resolved [], out ++ [LogNoKey]) else
  match new_Anthropic h with
  | Throw e => async (extractTags_catch e) out
  | Normal _ =>
  match messages_create h (request prompt) with
  | Throw e => async (extractTags_catch e) out
  | Normal r =>
  match firstText r with
  | Throw e => async (extractTags_catch e) out
  | Normal text =>
  match JSON_parse h text with
  | Throw e => async (extractTags_catch e) out
  | Normal (JArray items) =>
      (Resolved (asStrings (List.filter isValidTag items)),
       out ++ [LogExtracted (asStrings (List.filter isValidTag items)) prompt])
  | Normal _ => (Resolved [], out ++ [LogNotArray text])
  end end end end.
Proof.
  unfold extractTags, async, try_catch, extractTags_try.
  destruct (keyMissing (ANTHROPIC_API_KEY h)); [done|].
  unfold bind, lift, ret, console_log.
  destruct (new_Anthropic h) as [[]|e]; [|done].
  destruct (messages_create h (request prompt)) as [r|e]; [|done].
  destruct (firstText r) as [text|e]; [|done].
  destruct (JSON_parse h text) as [v|e]; [|done].
  by destruct v.
Qed.

Lemma firstText_other r type blocks :
  content r = OtherBlock type :: blocks -> firstText r = Normal "".
Proof. unfold firstText. by intros ->. Qed.

Lemma firstText_empty r : content r = [] -> exists e, firstText r = Throw e.
Proof. unfold firstText. intros ->. by eexists. Qed.

(** Under a failure of the contract's list, a promise that resolves
    resolves to the empty list. *)
Lemma extractTags_failure_resolved (out out' : Console) (tags : list string) :
  ExtractionFailure h prompt ->
  extractTags h prompt out = (Resolved tags, out') -> tags = [].
Proof.
  intros Hfail. rewrite extractTags_paths.
  destruct (keyMissing _) eqn:Hkey; [by intros [= <- _]|].
  destruct (new_Anthropic h) as [[]|] eqn:Hclient; [|apply catch_resolved].
  destruct (messages_create _ _) as [r|] eqn:Hcall; [|apply catch_resolved].
  destruct (firstText r) as [text|] eqn:Htext; [|apply catch_resolved].
  destruct (JSON_parse h text) as [v|] eqn:Hparse; [|apply catch_resolved].
  destruct v as [| | | |items|]; try by intros [= <- _].
  intros _. exfalso.
  destruct Hfail as [H|e H|e H|r' H Hc|r' type blocks H Hc|r' t e H Ht Hp|r' t v H Ht Hp Hv].
  - congruence.
  - congruence.
  - congruence.
  - assert (r' = r) as -> by congruence.
    destruct (firstText_empty r Hc). congruence.
  - assert (r' = r) as -> by congruence.
    rewrite (firstText_other r type blocks Hc) in Htext.
    pose proof (JSON_parse_empty h). congruence.
  - assert (r' = r) as -> by congruence. congruence.
  - assert (r' = r) as -> by congruence.
    assert (v = JArray items) as -> by congruence. discriminate.
Qed.

(** The promise is rejected exactly when the [try] block throws a value
    that has no string form. *)
Lemma extractTags_settles (out : Console) :
  (exists tags out', extractTags h prompt out = (Resolved tags, out')) \/
  (exists e raised,
      (extractTags_try h prompt out).1 = Throw e /\ shown e = Throw raised /\
      extractTags h prompt out = (Rejected raised, out)).
Proof.
  unfold extractTags, async, try_catch.
  destruct (extractTags_try h prompt out) as [[tags|e] out1] eqn:Htry.
  - left. by exists tags, out1.
  - assert (out1 = out) as ->.
    { revert Htry. unfold extractTags_try.
      destruct (keyMissing _); [discriminate|].
      unfold bind, lift, ret, console_log.
      destruct (new_Anthropic h) as [[]|]; [|by intros [= _ <-]].
      destruct (messages_create _ _) as [r|]; [|by intros [= _ <-]].
      destruct (firstText r) as [text|]; [|by intros [= _ <-]].
      destruct (JSON_parse h text) as [v|]; [|by intros [= _ <-]].
      by destruct (negb (Array_isArray v)). }
    unfold extractTags_catch, bind, lift, console_log, ret.
    destruct (shown e) as [text|raised] eqn:Hshown.
    + left. by eexists _, _.
    + right. by exists e, raised.
Qed.

End TagExtraction.

Section Vocabulary.

Lemma TAG_SET_has_spec (t : JSON) :
  TAG_SET_has t = true <-> exists s, t = JString s /\ s ∈ TAGS.
Proof.
  unfold TAG_SET_has, TAG_SET. destruct t as [| | |s| |];
    try (split; [discriminate | by intros (? & ? & _)]).
  rewrite bool_decide_eq_true, elem_of_list_to_set. split.
  - intros Hs. by exists s.
  - intros (s' & [= ->] & Hs). done.
Qed.

Lemma isValidTag_spec (t : JSON) :
  isValidTag t = true <-> exists s, t = JString s /\ s ∈ TAGS.
Proof.
  unfold isValidTag. rewrite andb_true_iff, TAG_SET_has_spec. split.
  - by intros [_ H].
  - intros (s & -> & Hs). split; [done | by exists s].
Qed.

Lemma validTags_spec (items : list JSON) (s : string) :
  s ∈ asStrings (List.filter isValidTag items) <-> JString s ∈ items /\ s ∈ TAGS.
Proof.
  unfold asStrings. rewrite list_elem_of_omap. split.
  - intros (v & Hv & Hs). apply list_elem_of_In, filter_In in Hv as [Hin Hvalid].
    apply isValidTag_spec in Hvalid as (s' & -> & Hs'). injection Hs as <-.
    split; [by apply list_elem_of_In | done].
  - intros [Hin Hs]. exists (JString s). split; [|done].
    apply list_elem_of_In, filter_In. split; [by apply list_elem_of_In|].
    apply isValidTag_spec. by exists s.
Qed.

Lemma TAGS_NoDup : NoDup TAGS.
Proof. apply (bool_decide_unpack (NoDup TAGS)). vm_compute. reflexivity. Qed.

End Vocabulary.

(** ** The extraction contract *)

(** C3 does not hold of the code.  When the model call is rejected with a
    value that has no string form (here a [Symbol]), the [catch] block
    throws a [TypeError] while it builds its log line, and the promise is
    rejected: nothing is printed and no list is returned. *)
Theorem extractTags_rejects_symbol_error :
  forall (prompt : string) (out : Console),
    ExtractionFailure symbolHost prompt /\
    extractTags symbolHost prompt out
    = (Rejected (ErrorObject "Cannot convert a Symbol value to a string"), out).
Proof.
  intros prompt out. split.
  - by eapply NetworkError.
  - rewrite extractTags_paths. reflexivity.
Qed.

(** C4.  Every string of the resolved list is a member of [TAGS].  When the
    model's text parses to an array, the resolved list holds exactly the
    strings of that array that are in [TAGS]; elements that are not strings
    and strings outside [TAGS] are dropped.  Membership is exact: "Piano"
    is not accepted although "piano" is. *)
Theorem extractTags_only_canonical_tags :
  forall (h : Host) (prompt : string) (out out' : Console) (tags : list string),
    extractTags h prompt out = (Resolved tags, out') ->
    Forall (fun t => t ∈ TAGS) tags /\
    (forall r text items,
        keyMissing (ANTHROPIC_API_KEY h) = false ->
        new_Anthropic h = Normal tt ->
        messages_create h (request prompt) = Normal r ->
        firstText r = Normal text ->
        JSON_parse h text = Normal (JArray items) ->
        tags = asStrings (List.filter isValidTag items) /\
        forall s, s ∈ tags <-> JString s ∈ items /\ s ∈ TAGS) /\
    (TAG_SET_has (JString "piano") = true /\
     TAG_SET_has (JString "Piano") = false).
Proof.
  intros h prompt out out' tags Hrun.
  rewrite extractTags_paths in Hrun. split; [|split].
  - destruct (keyMissing _); [injection Hrun as <- _; constructor|].
    destruct (new_Anthropic h);
      [|apply catch_resolved in Hrun as ->; constructor].
    destruct (messages_create _ _) as [r|];
      [|apply catch_resolved in Hrun as ->; constructor].
    destruct (firstText r) as [text|];
      [|apply catch_resolved in Hrun as ->; constructor].
    destruct (JSON_parse h text) as [[| | | |items|]|];
      [| | | | | |apply catch_resolved in Hrun as ->; constructor];
      injection Hrun as <- _; try constructor.
    apply Forall_forall. intros s Hs. by apply validTags_spec in Hs as [_ Hs].
  - intros r text items Hkey Hclient Hcall Htext Hparse.
    rewrite Hkey, Hclient, Hcall, Htext, Hparse in Hrun.
    injection Hrun as <- _. split; [done|]. intros s. apply validTags_spec.
  - split; vm_compute; reflexivity.
Qed.

Lemma extractTags_only_canonical_tags_witness :
  Forall (fun t => t ∈ TAGS) ["rain"; "piano"].
Proof.
  apply (extractTags_only_canonical_tags sampleHost "rainy piano" []
           [LogExtracted ["rain"; "piano"] "rainy piano"] ["rain"; "piano"]).
  vm_compute. reflexivity.
Defined.

(** The claimed size of the vocabulary, 33, is not the size of [TAGS]. *)
Lemma TAGS_not_33_terms :
  ~ (length TAGS = 33%nat) /\ ~ (size TAG_SET = 33%nat).
Proof.
  assert (Hsize : size TAG_SET = length TAGS)
    by (apply size_list_to_set, TAGS_NoDup).
  rewrite Hsize. split; intros H; vm_compute in H; discriminate.
Qed.

(** C6, amended.  The vocabulary is a fixed enumeration of exactly 34
    pairwise distinct terms, and [TAG_SET] holds exactly these 34. *)
Theorem TAGS_34_terms :
  length TAGS = 34%nat /\ NoDup TAGS /\ size TAG_SET = 34%nat /\
  (forall t, t ∈ TAG_SET <-> t ∈ TAGS).
Proof.
  split; [reflexivity|]. split; [apply TAGS_NoDup|]. split.
  - unfold TAG_SET. rewrite size_list_to_set; [reflexivity | apply TAGS_NoDup].
  - intros t. unfold TAG_SET. apply elem_of_list_to_set.
Qed.

(** * Further properties of the matcher *)

Section MatcherFacts.

Lemma includes_empty hay : includes hay "" = true.
Proof. by destruct hay. Qed.

Lemma occursIn_empty hay : occursIn "" hay.
Proof. apply includes_spec, includes_empty. Qed.

Lemma phraseScore_cons t (ts : list string) p :
  phraseScore (t :: ts) p =
  (if includes (toLowerCase p) (toLowerCase t) then 1 else 0) + phraseScore ts p.
Proof. apply scoreLoop_cons. Qed.

Lemma phraseScore_app (ts us : list string) p :
  phraseScore (ts ++ us) p = phraseScore ts p + phraseScore us p.
Proof. apply scoreLoop_app. Qed.

Lemma phraseScore_le_length (ts : list string) p :
  phraseScore ts p <= Z.of_nat (length ts).
Proof.
  induction ts as [|t ts IH]; [done|].
  rewrite phraseScore_cons. simpl length.
  destruct (includes (toLowerCase p) (toLowerCase t)); lia.
Qed.

Lemma phraseScore_pos (ts : list string) p :
  0 < phraseScore ts p ->
  exists t, t ∈ ts /\ occursIn (toLowerCase t) (toLowerCase p).
Proof.
  induction ts as [|t ts IH]; [done|].
  rewrite phraseScore_cons.
  destruct (includes (toLowerCase p) (toLowerCase t)) eqn:E; intros Hpos.
  - exists t. split; [left | by apply includes_spec].
  - destruct IH as (u & Hu & Hocc); [lia|]. exists u. split; [by right | done].
Qed.

Lemma phraseScore_full (ts : list string) p :
  phraseScore ts p = Z.of_nat (length ts) <->
  Forall (fun t => occursIn (toLowerCase t) (toLowerCase p)) ts.
Proof.
  induction ts as [|t ts IH]; [by split; [constructor|]|].
  rewrite phraseScore_cons, Forall_cons, <- IH, <- includes_spec. simpl length.
  pose proof (phraseScore_le_length ts p).
  destruct (includes (toLowerCase p) (toLowerCase t)); split.
  - intros H'. split; [done | lia].
  - intros [_ H']. lia.
  - intros H'. lia.
  - intros [? _]. done.
Qed.

Lemma phraseLoop_cons (ts : list string) i p (rest : list string) b :
  phraseLoop ts i (p :: rest) b =
  phraseLoop ts (i + 1) rest
    (if phraseScore ts p >? bestScore b
     then {| bestIndex := i; bestScore := phraseScore ts p |}
     else b).
Proof. reflexivity. Qed.

Lemma phraseLoop_ext (ts us rest : list string) i b :
  (forall p, p ∈ rest -> phraseScore ts p = phraseScore us p) ->
  phraseLoop ts i rest b = phraseLoop us i rest b.
Proof.
  revert i b. induction rest as [|p rest IH]; intros i b Hext; [done|].
  rewrite !phraseLoop_cons, (Hext p) by left.
  apply IH. intros q Hq. apply Hext. by right.
Qed.

Lemma phraseLoop_app (ts ps qs : list string) i b :
  phraseLoop ts i (ps ++ qs) b =
  phraseLoop ts (i + Z.of_nat (length ps)) qs (phraseLoop ts i ps b).
Proof.
  revert i b. induction ps as [|p ps IH]; intros i b.
  - simpl. by rewrite Z.add_0_r.
  - rewrite <- app_comm_cons, !phraseLoop_cons, IH. f_equal. simpl length. lia.
Qed.

Lemma phraseLoop_index_cases (ts rest : list string) i b :
  bestIndex (phraseLoop ts i rest b) = bestIndex b \/
  i <= bestIndex (phraseLoop ts i rest b).
Proof.
  revert i b. induction rest as [|p rest IH]; intros i b; [by left|].
  rewrite phraseLoop_cons.
  destruct (IH (i + 1)
              (if phraseScore ts p >? bestScore b
               then {| bestIndex := i; bestScore := phraseScore ts p |}
               else b)) as [H|H]; [|right; lia].
  rewrite H. destruct (phraseScore ts p >? bestScore b); [right; simpl; lia | by left].
Qed.

Lemma phraseLoop_no_better (ts rest : list string) i b :
  (forall q, q ∈ rest -> phraseScore ts q <= bestScore b) ->
  phraseLoop ts i rest b = b.
Proof.
  revert i. induction rest as [|p rest IH]; intros i Hle; [done|].
  rewrite phraseLoop_cons.
  pose proof (Hle p ltac:(left)) as Hp.
  rewrite Z.gtb_ltb. destruct (Z.ltb_spec (bestScore b) (phraseScore ts p)); [lia|].
  apply IH. intros q Hq. apply Hle. by right.
Qed.

Lemma phraseLoop_doubled (ts rest : list string) i b1 b2 :
  bestIndex b2 = bestIndex b1 -> bestScore b2 = 2 * bestScore b1 ->
  bestIndex (phraseLoop (ts ++ ts) i rest b2) = bestIndex (phraseLoop ts i rest b1) /\
  bestScore (phraseLoop (ts ++ ts) i rest b2) = 2 * bestScore (phraseLoop ts i rest b1).
Proof.
  revert i b1 b2. induction rest as [|p rest IH]; intros i b1 b2 Hi Hs; [done|].
  rewrite !phraseLoop_cons. apply IH.
  - rewrite phraseScore_app, !Z.gtb_ltb, Hs.
    destruct (Z.ltb_spec (2 * bestScore b1) (phraseScore ts p + phraseScore ts p));
      destruct (Z.ltb_spec (bestScore b1) (phraseScore ts p)); simpl; try done; lia.
  - rewrite phraseScore_app, !Z.gtb_ltb, Hs.
    destruct (Z.ltb_spec (2 * bestScore b1) (phraseScore ts p + phraseScore ts p));
      destruct (Z.ltb_spec (bestScore b1) (phraseScore ts p)); simpl; try done; lia.
Qed.

Lemma phraseScore_Permutation (ts us : list string) p :
  ts ≡ₚ us -> phraseScore ts p = phraseScore us p.
Proof.
  induction 1 as [|t ts us _ IH|t u ts|ts us vs _ IH1 _ IH2].
  - done.
  - by rewrite !phraseScore_cons, IH.
  - rewrite !phraseScore_cons. lia.
  - congruence.
Qed.

Lemma scanPhrases_at_best (phrases tags : list string) :
  bestIndex (scanPhrases phrases tags) <> -1 ->
  exists (i : nat) p,
    bestIndex (scanPhrases phrases tags) = Z.of_nat i /\ phrases !! i = Some p /\
    bestScore (scanPhrases phrases tags) = phraseScore tags p /\
    0 < phraseScore tags p /\
    (forall (j : nat) q, phrases !! j = Some q ->
                         phraseScore tags q <= phraseScore tags p) /\
    (forall (j : nat) q, (j < i)%nat -> phrases !! j = Some q ->
                         phraseScore tags q < phraseScore tags p).
Proof.
  intros Hne. destruct (scanPhrases_firstBest tags phrases) as [(Hi & _)|H]; done.
Qed.

End MatcherFacts.

(** X1.  The call never throws.  When it returns -1 the console is left as
    it was; when it returns an index, exactly one line is appended, and the
    line shows the phrase stored at that index (never a missing element),
    that phrase's score, which lies between 1 and the number of tags, and
    the number of tags. *)
Theorem findClosest_logs_the_match :
  forall (phrases tags : list string) (out : Console),
    findClosestPhraseByTags phrases tags out = (Normal (-1), out)
    \/
    exists (i : nat) p,
      phrases !! i = Some p /\
      0 < phraseScore tags p <= Z.of_nat (length tags) /\
      findClosestPhraseByTags phrases tags out
      = (Normal (Z.of_nat i),
         out ++ [LogMatched tags p (phraseScore tags p) (length tags)]).
Proof.
  intros phrases tags out. unfold findClosestPhraseByTags, bind, ret, console_log.
  destruct (scanPhrases_firstBest tags phrases)
    as [(Hi & _) | (i & p & Hi & Hp & Hs & Hpos & _)]; rewrite Hi.
  - by left.
  - right. exists i, p. split; [done|].
    split; [split; [done | apply phraseScore_le_length]|].
    destruct (Z.leb_spec 0 (Z.of_nat i)); [|lia].
    unfold phraseAt. by rewrite Nat2Z.id, Hp, Hs.
Qed.

(** X2.  The order of the tags does not matter: a permutation of the tag
    list gives the same result. *)
Theorem findClosest_tag_order_irrelevant :
  forall (phrases tags tags' : list string) (out : Console),
    tags ≡ₚ tags' ->
    (findClosestPhraseByTags phrases tags out).1
    = (findClosestPhraseByTags phrases tags' out).1.
Proof.
  intros phrases tags tags' out Hperm.
  destruct (findClosest_run phrases tags out) as [o1 ->].
  destruct (findClosest_run phrases tags' out) as [o2 ->].
  unfold scanPhrases. rewrite (phraseLoop_ext tags tags'); [done|].
  intros p _. by apply phraseScore_Permutation.
Qed.

Lemma findClosest_tag_order_irrelevant_witness :
  (findClosestPhraseByTags ["upbeat guitar jam"; "rainy piano night"]
     ["guitar"; "rain"; "piano"] []).1
  = (findClosestPhraseByTags ["upbeat guitar jam"; "rainy piano night"]
       ["rain"; "guitar"; "piano"] []).1.
Proof. apply findClosest_tag_order_irrelevant. apply perm_swap. Defined.

(** X3.  Tags are not deduplicated: passing every tag twice doubles every
    phrase's score.  The returned index is nevertheless the same. *)
Theorem findClosest_repeated_tags :
  forall (phrases tags : list string) (out : Console),
    (forall p, phraseScore (tags ++ tags) p = 2 * phraseScore tags p) /\
    (findClosestPhraseByTags phrases (tags ++ tags) out).1
    = (findClosestPhraseByTags phrases tags out).1.
Proof.
  intros phrases tags out. split.
  - intros p. rewrite phraseScore_app. lia.
  - destruct (findClosest_run phrases (tags ++ tags) out) as [o1 ->].
    destruct (findClosest_run phrases tags out) as [o2 ->].
    unfold scanPhrases. simpl. f_equal.
    by apply (phraseLoop_doubled tags phrases 0).
Qed.

(** X4.  The empty string is included in every phrase.  So with an empty
    tag in the list and a non-empty bank the call never answers -1, and
    with the empty tag alone it answers 0. *)
Theorem findClosest_empty_tag_matches_all :
  forall (phrases tags : list string) (out : Console),
    "" ∈ tags -> phrases <> [] ->
    (exists r : Z,
        returns (findClosestPhraseByTags phrases tags) out r /\
        0 <= r < Z.of_nat (length phrases)) /\
    returns (findClosestPhraseByTags phrases [""]) out 0.
Proof.
  intros phrases tags out Hin Hne.
  assert (Hpos : forall ts p, "" ∈ ts -> phraseScore ts p <> 0).
  { intros ts p Hts Hz. apply (proj1 (phraseScore_zero ts p) Hz "" Hts).
    apply occursIn_empty. }
  destruct phrases as [|p0 rest]; [done|]. split.
  - exists (bestIndex (scanPhrases (p0 :: rest) tags)).
    split; [apply findClosest_returns|].
    destruct (scanPhrases_range (p0 :: rest) tags) as [Hm|Hr]; [|done].
    destruct (scanPhrases_firstBest tags (p0 :: rest))
      as [(_ & _ & Hall) | (i & p & Hi & _)]; [|lia].
    destruct (Hpos tags p0 Hin). by apply (Hall 0%nat).
  - assert (H1 : forall q, phraseScore [""] q = 1).
    { intros q. rewrite phraseScore_cons. simpl toLowerCase.
      by rewrite includes_empty. }
    assert (bestIndex (scanPhrases (p0 :: rest) [""]) = 0) as <-;
      [|apply findClosest_returns].
    destruct (scanPhrases_firstBest [""] (p0 :: rest))
      as [(_ & _ & Hall) | (i & p & Hi & _ & _ & _ & _ & Hfirst)].
    + specialize (Hall 0%nat p0 eq_refl). rewrite H1 in Hall. done.
    + destruct i as [|i]; [done|].
      specialize (Hfirst 0%nat p0 ltac:(lia) eq_refl). rewrite !H1 in Hfirst. lia.
Qed.

Lemma findClosest_empty_tag_matches_all_witness :
  (exists r : Z,
      returns (findClosestPhraseByTags ["lofi beats"; "calm study"] ["space"; ""]) [] r /\
      0 <= r < Z.of_nat (length ["lofi beats"; "calm study"])) /\
  returns (findClosestPhraseByTags ["lofi beats"; "calm study"] [""]) [] 0.
Proof.
  apply findClosest_empty_tag_matches_all.
  - right. left.
  - discriminate.
Defined.

(** X5.  If some phrase of the bank contains every tag of a non-empty tag
    list, the call returns the first phrase of the bank that contains every
    tag. *)
Theorem findClosest_prefers_full_match :
  forall (phrases tags : list string) (out : Console) (i : nat) (p : string),
    tags <> [] ->
    phrases !! i = Some p ->
    Forall (fun t => occursIn (toLowerCase t) (toLowerCase p)) tags ->
    exists (k : nat) q,
      returns (findClosestPhraseByTags phrases tags) out (Z.of_nat k) /\
      (k <= i)%nat /\ phrases !! k = Some q /\
      Forall (fun t => occursIn (toLowerCase t) (toLowerCase q)) tags /\
      (forall (j : nat) q', (j < k)%nat -> phrases !! j = Some q' ->
         ~ Forall (fun t => occursIn (toLowerCase t) (toLowerCase q')) tags).
Proof.
  intros phrases tags out i p Hne Hp Hall.
  apply phraseScore_full in Hall.
  assert (Hlen : 0 < Z.of_nat (length tags)) by (destruct tags; [done | simpl; lia]).
  destruct (scanPhrases_firstBest tags phrases)
    as [(_ & _ & Hzero) | (k & q & Hk & Hq & _ & _ & Hmax & Hfirst)].
  - specialize (Hzero i p Hp). lia.
  - pose proof (Hmax i p Hp) as Hle.
    pose proof (phraseScore_le_length tags q) as Hub.
    assert (Hfull : phraseScore tags q = Z.of_nat (length tags)) by lia.
    exists k, q. rewrite <- Hk. split; [apply findClosest_returns|].
    split; [|split; [done|split; [by apply phraseScore_full|]]].
    + destruct (decide (k <= i)%nat) as [|Hgt]; [done|].
      specialize (Hfirst i p ltac:(lia) Hp). lia.
    + intros j q' Hj Hq' Hall'. apply phraseScore_full in Hall'.
      specialize (Hfirst j q' Hj Hq'). lia.
Qed.

Lemma findClosest_prefers_full_match_witness :
  exists (k : nat) q,
    returns (findClosestPhraseByTags
               ["rainy cafe jazz"; "rainy piano night"; "night rain, slow piano"]
               ["rain"; "piano"]) [] (Z.of_nat k) /\
    (k <= 2)%nat /\
    ["rainy cafe jazz"; "rainy piano night"; "night rain, slow piano"] !! k = Some q /\
    Forall (fun t => occursIn (toLowerCase t) (toLowerCase q)) ["rain"; "piano"] /\
    (forall (j : nat) q', (j < k)%nat ->
       ["rainy cafe jazz"; "rainy piano night"; "night rain, slow piano"] !! j = Some q' ->
       ~ Forall (fun t => occursIn (toLowerCase t) (toLowerCase q')) ["rain"; "piano"]).
Proof.
  apply (findClosest_prefers_full_match _ _ [] 2%nat "night rain, slow piano").
  - discriminate.
  - reflexivity.
  - apply phraseScore_full. vm_compute. reflexivity.
Defined.

(** X6.  A phrase is only ever returned if at least one of the tags occurs
    in it (both lower-cased). *)
Theorem findClosest_match_contains_a_tag :
  forall (phrases tags : list string) (out : Console) (r : Z),
    returns (findClosestPhraseByTags phrases tags) out r ->
    r <> -1 ->
    exists (i : nat) p t,
      r = Z.of_nat i /\ phrases !! i = Some p /\ t ∈ tags /\
      occursIn (toLowerCase t) (toLowerCase p).
Proof.
  intros phrases tags out r Hr Hne.
  rewrite (returns_inj _ _ _ _ Hr (findClosest_returns phrases tags out)) in *.
  destruct (scanPhrases_at_best phrases tags Hne) as (i & p & Hi & Hp & _ & Hpos & _).
  destruct (phraseScore_pos tags p Hpos) as (t & Ht & Hocc).
  by exists i, p, t.
Qed.

Lemma findClosest_match_contains_a_tag_witness :
  exists (i : nat) p t,
    1 = Z.of_nat i /\
    ["upbeat guitar jam"; "Rainy Piano Night"] !! i = Some p /\
    t ∈ ["Rain"; "ocean"] /\ occursIn (toLowerCase t) (toLowerCase p).
Proof.
  apply (findClosest_match_contains_a_tag _ _ []).
  - vm_compute. reflexivity.
  - discriminate.
Defined.

(** X7.  Extending the bank at its end: the result is the old one, or an
    index among the added phrases; it is the old one whenever no added
    phrase scores above the best score of the old bank. *)
Theorem findClosest_bank_extension :
  forall (phrases added tags : list string) (out : Console),
    exists r r' : Z,
      returns (findClosestPhraseByTags phrases tags) out r /\
      returns (findClosestPhraseByTags (phrases ++ added) tags) out r' /\
      (r' = r \/ Z.of_nat (length phrases) <= r' < Z.of_nat (length (phrases ++ added))) /\
      ((forall q, q ∈ added -> phraseScore tags q <= maxScore tags phrases) -> r' = r).
Proof.
  intros phrases added tags out.
  exists (bestIndex (scanPhrases phrases tags)),
         (bestIndex (scanPhrases (phrases ++ added) tags)).
  split; [apply findClosest_returns|]. split; [apply findClosest_returns|].
  assert (Happ : scanPhrases (phrases ++ added) tags
                 = phraseLoop tags (Z.of_nat (length phrases)) added
                     (scanPhrases phrases tags)).
  { unfold scanPhrases. by rewrite phraseLoop_app. }
  split.
  - destruct (phraseLoop_index_cases tags added (Z.of_nat (length phrases))
                (scanPhrases phrases tags)) as [H|H]; rewrite <- Happ in H.
    + by left.
    + destruct (scanPhrases_range (phrases ++ added) tags) as [Hm|Hr]; [lia|].
      right. lia.
  - intros Hle. rewrite Happ, phraseLoop_no_better; [done|].
    by rewrite scanPhrases_bestScore.
Qed.

(** X8.  A tag that occurs in no phrase of the bank has no influence:
    the result is the same with and without it. *)
Theorem findClosest_ignores_unmatched_tag :
  forall (phrases before after : list string) (tag : string) (out : Console),
    (forall p, p ∈ phrases -> ~ occursIn (toLowerCase tag) (toLowerCase p)) ->
    (findClosestPhraseByTags phrases (before ++ tag :: after) out).1
    = (findClosestPhraseByTags phrases (before ++ after) out).1.
Proof.
  intros phrases before after tag out Hno.
  destruct (findClosest_run phrases (before ++ tag :: after) out) as [o1 ->].
  destruct (findClosest_run phrases (before ++ after) out) as [o2 ->].
  unfold scanPhrases.
  rewrite (phraseLoop_ext (before ++ tag :: after) (before ++ after)); [done|].
  intros p Hp. rewrite !phraseScore_app, phraseScore_cons.
  destruct (includes (toLowerCase p) (toLowerCase tag)) eqn:E; [|done].
  destruct (Hno p Hp). by apply includes_spec.
Qed.

Lemma findClosest_ignores_unmatched_tag_witness :
  (findClosestPhraseByTags ["upbeat guitar jam"; "rainy piano night"]
     (["rain"] ++ "space" :: ["piano"]) []).1
  = (findClosestPhraseByTags ["upbeat guitar jam"; "rainy piano night"]
       (["rain"] ++ ["piano"]) []).1.
Proof.
  apply findClosest_ignores_unmatched_tag.
  intros p Hp. rewrite <- includes_spec.
  apply elem_of_cons in Hp as [->|Hp]; [vm_compute; discriminate|].
  apply elem_of_cons in Hp as [->|Hp]; [vm_compute; discriminate|].
  by apply elem_of_nil in Hp.
Defined.

(** * Further properties of tag extraction *)

Section ExtractionFacts.

Lemma asStrings_cons v (values : list JSON) :
  asStrings (v :: values) =
  match v with JString s => s :: asStrings values | _ => asStrings values end.
Proof. by destruct v. Qed.

Lemma validTags_sublist (items : list JSON) :
  asStrings (List.filter isValidTag items) `sublist_of` asStrings items.
Proof.
  induction items as [|v items IH]; [done|]. simpl List.filter.
  destruct (isValidTag v) eqn:E.
  - apply isValidTag_spec in E as (s & -> & _).
    rewrite !asStrings_cons. by apply sublist_skip.
  - rewrite (asStrings_cons v items). destruct v; try done. by apply sublist_cons.
Qed.

Lemma validTags_occurrences (items : list JSON) (t : string) :
  t ∈ TAGS ->
  filter (fun x => x = t) (asStrings (List.filter isValidTag items))
  = filter (fun x => x = t) (asStrings items).
Proof.
  intros Ht. induction items as [|v items IH]; [done|]. simpl List.filter.
  destruct (isValidTag v) eqn:E.
  - apply isValidTag_spec in E as (s & -> & _).
    rewrite !asStrings_cons, !filter_cons, IH. done.
  - rewrite (asStrings_cons v items). destruct v as [| | |s| |]; try done.
    rewrite filter_cons. destruct (decide (s = t)) as [->|Hne]; [|done].
    assert (isValidTag (JString t) = true) by (apply isValidTag_spec; by exists t).
    congruence.
Qed.

Lemma asStrings_length (values : list JSON) :
  (length (asStrings values) <= length values)%nat.
Proof.
  induction values as [|v values IH]; [done|].
  rewrite asStrings_cons. destruct v; simpl; lia.
Qed.

Lemma validTags_all_valid (ts : list string) :
  Forall (fun t => t ∈ TAGS) ts ->
  asStrings (List.filter isValidTag (JString <$> ts)) = ts.
Proof.
  induction 1 as [|t ts Ht _ IH]; [done|].
  rewrite fmap_cons. simpl List.filter.
  assert (isValidTag (JString t) = true) as ->
    by (apply isValidTag_spec; by exists t).
  by rewrite asStrings_cons, IH.
Qed.

Lemma TAGS_lower_case t : t ∈ TAGS -> toLowerCase t = t.
Proof.
  revert t. apply Forall_forall. unfold TAGS.
  repeat (apply Forall_cons; split; [reflexivity|]). apply Forall_nil_2.
Qed.

Lemma TAGS_ascii t : t ∈ TAGS -> isAscii t = true.
Proof.
  revert t. apply Forall_forall. unfold TAGS.
  repeat (apply Forall_cons; split; [reflexivity|]). apply Forall_nil_2.
Qed.

Lemma extractTags_from_array (h : Host) (prompt : string) (out out' : Console)
    (tags : list string) :
  extractTags h prompt out = (Resolved tags, out') ->
  tags <> [] ->
  exists r text items,
    keyMissing (ANTHROPIC_API_KEY h) = false /\
    messages_create h (request prompt) = Normal r /\
    firstText r = Normal text /\
    JSON_parse h text = Normal (JArray items) /\
    tags = asStrings (List.filter isValidTag items).
Proof.
  rewrite extractTags_paths. intros Hrun Hne.
  destruct (keyMissing _) eqn:Hkey; [by injection Hrun as <- _|].
  destruct (new_Anthropic h); [|by apply catch_resolved in Hrun].
  destruct (messages_create _ _) as [r|] eqn:Hcall; [|by apply catch_resolved in Hrun].
  destruct (firstText r) as [text|] eqn:Htext; [|by apply catch_resolved in Hrun].
  destruct (JSON_parse h text) as [[| | | |items|]|] eqn:Hparse;
    try (by injection Hrun as <- _); [|by apply catch_resolved in Hrun].
  injection Hrun as <- _. by exists r, text, items.
Qed.

Lemma append_assoc (a b c : string) : (a +:+ b) +:+ c = a +:+ b +:+ c.
Proof.
  induction a as [|x a IH]; [done|]. by rewrite !append_cons, IH.
Qed.

Lemma append_empty_r (a : string) : a +:+ "" = a.
Proof. induction a as [|x a IH]; [done|]. by rewrite append_cons, IH. Qed.

Lemma occursIn_middle (needle left right : string) :
  occursIn needle (left +:+ needle +:+ right).
Proof. by exists left, right. Qed.

Lemma occursIn_wrap (needle hay left right : string) :
  occursIn needle hay -> occursIn needle (left +:+ hay +:+ right).
Proof.
  intros (b & a & ->). exists (left +:+ b), (a +:+ right).
  by rewrite !append_assoc.
Qed.

Lemma concat_occurs (sep t : string) (l : list string) :
  t ∈ l -> occursIn t (String.concat sep l).
Proof.
  induction l as [|x l IH]; intros Hin; [by apply elem_of_nil in Hin|].
  apply elem_of_cons in Hin as [->|Hin].
  - destruct l as [|y l]; simpl.
    + exists "", "". by rewrite append_empty_r.
    + by exists "", (sep +:+ String.concat sep (y :: l)).
  - specialize (IH Hin). destruct l as [|y l]; [by apply elem_of_nil in Hin|].
    change (String.concat sep (x :: y :: l))
      with (x +:+ sep +:+ String.concat sep (y :: l)).
    destruct IH as (b & a & ->). exists (x +:+ sep +:+ b), a.
    by rewrite !append_assoc.
Qed.

End ExtractionFacts.

(** X9.  A non-empty result always comes from an array the model's first
    text block parsed to.  It is a sublist of the strings of that array, so
    nothing is added or reordered, and it holds every canonical tag as
    often as the array does, so nothing is deduplicated.  The result is
    never longer than the array. *)
Theorem extractTags_sublist_of_answer :
  forall (h : Host) (prompt : string) (out out' : Console) (tags : list string),
    extractTags h prompt out = (Resolved tags, out') ->
    tags <> [] ->
    exists r text items,
      messages_create h (request prompt) = Normal r /\
      firstText r = Normal text /\
      JSON_parse h text = Normal (JArray items) /\
      tags `sublist_of` asStrings items /\
      (forall t, t ∈ TAGS ->
         length (filter (fun x => x = t) tags)
         = length (filter (fun x => x = t) (asStrings items))) /\
      (length tags <= length items)%nat.
Proof.
  intros h prompt out out' tags Hrun Hne.
  destruct (extractTags_from_array h prompt out out' tags Hrun Hne)
    as (r & text & items & _ & Hcall & Htext & Hparse & ->).
  exists r, text, items. repeat split; try done.
  - apply validTags_sublist.
  - intros t Ht. by rewrite validTags_occurrences.
  - etrans; [apply sublist_length, validTags_sublist | apply asStrings_length].
Qed.

Lemma extractTags_sublist_of_answer_witness :
  exists r text items,
    messages_create sampleHost (request "rainy piano") = Normal r /\
    firstText r = Normal text /\
    JSON_parse sampleHost text = Normal (JArray items) /\
    ["rain"; "piano"] `sublist_of` asStrings items /\
    (forall t, t ∈ TAGS ->
       length (filter (fun x => x = t) ["rain"; "piano"])
       = length (filter (fun x => x = t) (asStrings items))) /\
    (length ["rain"; "piano"] <= length items)%nat.
Proof.
  apply (extractTags_sublist_of_answer sampleHost "rainy piano" []
           [LogExtracted ["rain"; "piano"] "rainy piano"]).
  - vm_compute. reflexivity.
  - discriminate.
Defined.

(** X10.  An answer made of canonical tags only is returned unchanged, in
    the same order and with the same repetitions. *)
Theorem extractTags_keeps_canonical_answer :
  forall (h : Host) (prompt : string) (out : Console) r text (ts : list string),
    keyMissing (ANTHROPIC_API_KEY h) = false ->
    new_Anthropic h = Normal tt ->
    messages_create h (request prompt) = Normal r ->
    firstText r = Normal text ->
    JSON_parse h text = Normal (JArray (JString <$> ts)) ->
    Forall (fun t => t ∈ TAGS) ts ->
    extractTags h prompt out = (Resolved ts, out ++ [LogExtracted ts prompt]).
Proof.
  intros h prompt out r text ts Hkey Hclient Hcall Htext Hparse Hvalid.
  rewrite extractTags_paths, Hkey, Hclient, Hcall, Htext, Hparse.
  by rewrite validTags_all_valid.
Qed.

Lemma extractTags_keeps_canonical_answer_witness :
  extractTags tidyHost "rainy day sadness" []
  = (Resolved ["sad"; "rain"], [] ++ [LogExtracted ["sad"; "rain"] "rainy day sadness"]).
Proof.
  apply (extractTags_keeps_canonical_answer tidyHost "rainy day sadness" []
           {| content := [TextBlock tidyText] |} tidyText ["sad"; "rain"]);
    try reflexivity.
  apply Forall_forall. intros t Ht.
  apply elem_of_cons in Ht as [->|Ht]; [by vm_compute; set_solver|].
  apply elem_of_cons in Ht as [->|Ht]; [by vm_compute; set_solver|].
  by apply elem_of_nil in Ht.
Defined.

(** X11.  A call whose promise resolves appends exactly one line to the
    console and leaves the earlier lines untouched.  Without a credential
    the line is the "no key" notice and the result is empty; a non-empty
    result is always reported, with exactly the returned tags and the
    prompt.  The only other outcome is that the [try] block threw a value
    without a string form: then the promise is rejected with what the
    conversion raised and nothing is printed. *)
Theorem extractTags_logs_once :
  forall (h : Host) (prompt : string) (out : Console),
    (exists (tags : list string) (entry : LogEntry),
        extractTags h prompt out = (Resolved tags, out ++ [entry]) /\
        (keyMissing (ANTHROPIC_API_KEY h) = true -> tags = [] /\ entry = LogNoKey) /\
        (tags <> [] -> entry = LogExtracted tags prompt) /\
        (forall reported p, entry = LogExtracted reported p ->
                            reported = tags /\ p = prompt))
    \/
    (exists e raised,
        (extractTags_try h prompt out).1 = Throw e /\
        shown e = Throw raised /\
        extractTags h prompt out = (Rejected raised, out)).
Proof.
  intros h prompt out.
  destruct (extractTags_settles h prompt out) as [(tags & out' & Hrun)|Hrej];
    [left | by right].
  assert (Hcatch : forall e,
             async (extractTags_catch e) out = (Resolved tags, out') ->
             exists text, tags = [] /\ out' = out ++ [LogFailed text]).
  { intros e. destruct (shown e) as [text|raised] eqn:E.
    - rewrite (catch_printable e text out E). intros [= <- <-]. by exists text.
    - rewrite (catch_unprintable e raised out E). discriminate. }
  rewrite Hrun. revert Hrun. rewrite extractTags_paths.
  destruct (keyMissing _).
  { intros [= <- <-]. eexists _, _. split; [reflexivity|]. by repeat split. }
  destruct (new_Anthropic h).
  2:{ intros (text & -> & ->)%Hcatch. eexists _, _. split; [reflexivity|].
      repeat split; (done || discriminate). }
  destruct (messages_create _ _) as [r|].
  2:{ intros (text & -> & ->)%Hcatch. eexists _, _. split; [reflexivity|].
      repeat split; (done || discriminate). }
  destruct (firstText r) as [text|].
  2:{ intros (text & -> & ->)%Hcatch. eexists _, _. split; [reflexivity|].
      repeat split; (done || discriminate). }
  destruct (JSON_parse h text) as [[| | | |items|]|].
  7:{ intros (text' & -> & ->)%Hcatch. eexists _, _. split; [reflexivity|].
      repeat split; (done || discriminate). }
  all: intros [= <- <-]; eexists _, _; (split; [reflexivity|]);
    repeat split; try (done || discriminate); congruence.
Qed.

(** X12.  Only the first content block of the response is read: two hosts
    that agree on everything but the blocks after the first settle the
    promise in the same way and print the same line. *)
Theorem extractTags_reads_first_block_only :
  forall (h1 h2 : Host) (prompt : string) (out : Console) (r1 r2 : Response),
    ANTHROPIC_API_KEY h1 = ANTHROPIC_API_KEY h2 ->
    new_Anthropic h1 = new_Anthropic h2 ->
    (forall text, JSON_parse h1 text = JSON_parse h2 text) ->
    messages_create h1 (request prompt) = Normal r1 ->
    messages_create h2 (request prompt) = Normal r2 ->
    head (content r1) = head (content r2) ->
    extractTags h1 prompt out = extractTags h2 prompt out.
Proof.
  intros h1 h2 prompt out r1 r2 Hkey Hclient Hparse Hc1 Hc2 Hhead.
  assert (Htext : firstText r1 = firstText r2).
  { unfold firstText. destruct (content r1), (content r2); simpl in Hhead;
      try done. by injection Hhead as ->. }
  rewrite !extractTags_paths, Hkey, Hclient, Hc1, Hc2, Htext.
  destruct (keyMissing _); [done|]. destruct (new_Anthropic h2); [|done].
  destruct (firstText r2) as [text|]; [|done]. by rewrite Hparse.
Qed.

Lemma extractTags_reads_first_block_only_witness :
  extractTags sampleHost "rainy piano" [] = extractTags twoBlockHost "rainy piano" [].
Proof.
  apply (extractTags_reads_first_block_only sampleHost twoBlockHost "rainy piano" []
           {| content := [TextBlock sampleText] |}
           {| content := [TextBlock sampleText; OtherBlock "tool_use"] |});
    reflexivity.
Defined.

(** X13.  The vocabulary test is case-sensitive in general: every term of
    [TAGS] is written in lower case, so a string that differs from a term
    only in letter case, and is not the term itself, is rejected. *)
Theorem isValidTag_rejects_case_variants :
  forall (t s : string),
    t ∈ TAGS -> sameUpToCase s t -> s <> t ->
    isValidTag (JString t) = true /\ isValidTag (JString s) = false.
Proof.
  intros t s Ht Hsame Hne. split.
  - apply isValidTag_spec. by exists t.
  - apply not_true_is_false. intros Hvalid.
    apply isValidTag_spec in Hvalid as (s' & [= <-] & Hs).
    apply Hne. rewrite <- (TAGS_lower_case s Hs), <- (TAGS_lower_case t Ht).
    apply sameUpToCase_lower; [by apply TAGS_ascii | done].
Qed.

Lemma isValidTag_rejects_case_variants_witness :
  isValidTag (JString "bossa nova") = true /\ isValidTag (JString "Bossa Nova") = false.
Proof.
  apply isValidTag_rejects_case_variants.
  - apply (bool_decide_unpack ("bossa nova" ∈ TAGS)). vm_compute. reflexivity.
  - apply sameUpToCaseb_sound. vm_compute. reflexivity.
  - discriminate.
Defined.

(** * The two functions together *)

Section Pipeline.

Lemma findClosest_no_tags (phrases : list string) (out : Console) :
  findClosestPhraseByTags phrases [] out = (Normal (-1), out).
Proof.
  assert (H : bestIndex (scanPhrases phrases []) = -1).
  { apply scanPhrases_no_match, maxScore_zero.
    intros p t _ Ht. by apply elem_of_nil in Ht. }
  unfold findClosestPhraseByTags, bind, ret. by rewrite H.
Qed.

Lemma extractTags_member (h : Host) (prompt : string) (out out' : Console)
    (tags : list string) (t : string) :
  extractTags h prompt out = (Resolved tags, out') -> t ∈ tags -> t ∈ TAGS.
Proof.
  intros Hrun Ht.
  assert (Hne : tags <> []) by (intros ->; by apply elem_of_nil in Ht).
  destruct (extractTags_from_array h prompt out out' tags Hrun Hne)
    as (_ & _ & items & _ & _ & _ & _ & ->).
  by apply validTags_spec in Ht as [_ Ht].
Qed.

End Pipeline.

(** X14.  When extraction fails, the matcher run on what [extractTags]
    resolved to answers -1 for every phrase bank and prints nothing, so a
    caller sees a failed extraction as "no match". *)
Theorem failed_extraction_gives_no_match :
  forall (h : Host) (prompt : string) (out out' : Console)
         (tags phrases : list string),
    ExtractionFailure h prompt ->
    extractTags h prompt out = (Resolved tags, out') ->
    findClosestPhraseByTags phrases tags out' = (Normal (-1), out').
Proof.
  intros h prompt out out' tags phrases Hfail Hrun.
  rewrite (extractTags_failure_resolved h prompt out out' tags Hfail Hrun).
  apply findClosest_no_tags.
Qed.

Lemma failed_extraction_gives_no_match_witness :
  findClosestPhraseByTags ["rainy piano night"; "upbeat guitar jam"] [] [LogNoKey]
  = (Normal (-1), [LogNoKey]).
Proof.
  apply (failed_extraction_gives_no_match hostWithoutKey "rainy day sadness" []).
  - apply MissingCredential. reflexivity.
  - reflexivity.
Defined.

(** X15.  When the matcher returns a phrase for the tags [extractTags]
    resolved to, that phrase, lower-cased, contains one of the resolved
    tags verbatim, and this tag is a term of the vocabulary. *)
Theorem matched_phrase_contains_canonical_tag :
  forall (h : Host) (prompt : string) (out out' : Console)
         (tags phrases : list string) (r : Z),
    extractTags h prompt out = (Resolved tags, out') ->
    returns (findClosestPhraseByTags phrases tags) out' r ->
    r <> -1 ->
    exists (i : nat) p t,
      r = Z.of_nat i /\ phrases !! i = Some p /\
      t ∈ tags /\ t ∈ TAGS /\ occursIn t (toLowerCase p).
Proof.
  intros h prompt out out' tags phrases r Hrun Hr Hne.
  rewrite (returns_inj _ _ _ _ Hr (findClosest_returns phrases tags out')) in *.
  destruct (scanPhrases_at_best phrases tags Hne) as (i & p & Hi & Hp & _ & Hpos & _).
  destruct (phraseScore_pos tags p Hpos) as (t & Ht & Hocc).
  pose proof (extractTags_member h prompt out out' tags t Hrun Ht) as Hvocab.
  rewrite (TAGS_lower_case t Hvocab) in Hocc.
  by exists i, p, t.
Qed.

Lemma matched_phrase_contains_canonical_tag_witness :
  exists (i : nat) p t,
    1 = Z.of_nat i /\
    ["upbeat guitar jam"; "Rainy Piano Night"] !! i = Some p /\
    t ∈ ["rain"; "piano"] /\ t ∈ TAGS /\ occursIn t (toLowerCase p).
Proof.
  apply (matched_phrase_contains_canonical_tag sampleHost "rainy piano" []
           [LogExtracted ["rain"; "piano"] "rainy piano"]).
  - vm_compute. reflexivity.
  - vm_compute. reflexivity.
  - discriminate.
Defined.

(** X16.  The system prompt sent with every request names every term of
    the vocabulary. *)
Theorem request_lists_whole_vocabulary :
  forall (prompt t : string),
    t ∈ TAGS -> occursIn t (system (request prompt)).
Proof.
  intros prompt t Ht.
  change (system (request prompt)) with SYSTEM_PROMPT. unfold SYSTEM_PROMPT.
  apply occursIn_wrap. by apply concat_occurs.
Qed.

Lemma request_lists_whole_vocabulary_witness :
  occursIn "vinyl crackle" (system (request "old records on a rainy night")).
Proof.
  apply request_lists_whole_vocabulary.
  apply (bool_decide_unpack ("vinyl crackle" ∈ TAGS)). vm_compute. reflexivity.
Defined.

(** X17.  When every value the [try] block throws has a string form, as
    [Error] objects with a string message have, the promise resolves, and
    under each failure of the contract's list it resolves to the empty
    list. *)
Theorem extractTags_resolves_when_errors_print :
  forall (h : Host) (prompt : string) (out : Console),
    (forall e, (extractTags_try h prompt out).1 = Throw e ->
               exists text, shown e = Normal text) ->
    (exists tags out', extractTags h prompt out = (Resolved tags, out')) /\
    (ExtractionFailure h prompt ->
     exists out', extractTags h prompt out = (Resolved [], out')).
Proof.
  intros h prompt out Hprint.
  assert (Hres : exists tags out', extractTags h prompt out = (Resolved tags, out')).
  { destruct (extractTags_settles h prompt out)
      as [Hres|(e & raised & Hthrow & Hshown & _)]; [done|].
    destruct (Hprint e Hthrow) as [text Htext]. congruence. }
  split; [done|]. intros Hfail. destruct Hres as (tags & out' & Hrun).
  exists out'. by rewrite <- (extractTags_failure_resolved h prompt out out' tags Hfail Hrun).
Qed.

Lemma extractTags_resolves_when_errors_print_witness :
  (exists tags out',
      extractTags offlineHost "rainy day sadness" [] = (Resolved tags, out')) /\
  (ExtractionFailure offlineHost "rainy day sadness" ->
   exists out', extractTags offlineHost "rainy day sadness" [] = (Resolved [], out')).
Proof.
  apply extractTags_resolves_when_errors_print.
  intros e H. vm_compute in H. injection H as <-. by eexists.
Defined.
